(** * pg-client-helper: the parameter transformer, the query functions and
      the transaction functions of [lib/pg-client-helper.ts], as Rocq
      definitions, and the properties the specification states about
      them.

    The functions are those of the version with transactions (v1.1);
    [queryMultiple] of the version before it is given as well.

    JavaScript strings are lists of code units (restricted to the 8-bit
    range; every character the code inspects is ASCII).  What the host
    provides -- the [RegExp] engine, the [pg] pool and its clients -- is
    modelled as far as the code relies on it and is a parameter beyond
    that. *)

From Stdlib Require Import Ascii String List Arith Lia Bool ZArith.
From Stdlib Require Import Permutation Sorted DecimalNat.
From Stdlib Require DecimalFacts.
Import ListNotations.

Set Warnings "-register-all".

(* ================================================================== *)
(** ** Strings *)

Definition str := list ascii.
Coercion list_ascii_of_string : string >-> list.

Open Scope char_scope.
Open Scope string_scope.
Open Scope list_scope.

Definition str_eqb (a b : str) : bool :=
  if list_eq_dec ascii_dec a b then true else false.

(** [s.startsWith(p)] *)
Fixpoint startsWith (s p : str) {struct p} : bool :=
  match p, s with
  | [], _ => true
  | c :: p', d :: s' => Ascii.eqb c d && startsWith s' p'
  | _ :: _, [] => false
  end.

Definition is_digit (c : ascii) : bool :=
  let n := nat_of_ascii c in ((48 <=? n) && (n <=? 57))%nat.

(** Decimal rendering of an array length, as a template literal
    [`${out_parameters.length}`] prints it. *)
Fixpoint uint_chars (d : Decimal.uint) : str :=
  match d with
  | Decimal.Nil => []
  | Decimal.D0 d => "0"%char :: uint_chars d
  | Decimal.D1 d => "1"%char :: uint_chars d
  | Decimal.D2 d => "2"%char :: uint_chars d
  | Decimal.D3 d => "3"%char :: uint_chars d
  | Decimal.D4 d => "4"%char :: uint_chars d
  | Decimal.D5 d => "5"%char :: uint_chars d
  | Decimal.D6 d => "6"%char :: uint_chars d
  | Decimal.D7 d => "7"%char :: uint_chars d
  | Decimal.D8 d => "8"%char :: uint_chars d
  | Decimal.D9 d => "9"%char :: uint_chars d
  end.

Definition show_nat (n : nat) : str := uint_chars (Nat.to_uint n).

(* ================================================================== *)
(** ** Values, parameter sets, errors *)

(** A JavaScript value as far as the helper looks at it: it only asks
    whether a value is an array. *)
Inductive value : Type :=
  | VUndefined
  | VNull
  | VBool (b : bool)
  | VNum (n : Z)
  | VStr (s : str)
  | VArr (items : list value).

(** A plain object: its own enumerable string keys in [Object.keys]
    order, each with its value. *)
Definition object := list (str * value).

Definition Object_keys (o : object) : list str := map fst o.

(** [o[key]] *)
Fixpoint get (o : object) (key : str) : value :=
  match o with
  | [] => VUndefined
  | (k, v) :: o' => if str_eqb k key then v else get o' key
  end.

(** The optional parameter [Object | Array<any>] of the query functions. *)
Inductive params : Type :=
  | NoParams
  | ArrayParams (l : list value)
  | NamedParams (o : object).

Inductive error : Type :=
  | InvalidParameterName (key : str)
  | SyntaxError (pattern : str)
  | HostError (code : nat).

Inductive result (A : Type) : Type :=
  | Ok (a : A)
  | Throw (e : error).
Arguments Ok {A} a.
Arguments Throw {A} e.

(** [isArray(item)]: [item && Array.isArray(item)]; an array is truthy. *)
Definition isArray (item : value) : bool :=
  match item with VArr _ => true | _ => false end.

(* ================================================================== *)
(** ** Regular expressions

    The code builds [new RegExp(escapedKey, "g")] and uses [test] and
    [String.prototype.replace] with it.  The patterns made only of
    literal characters, escaped syntax characters and [.] are modelled
    here; what the engine does with any other pattern is a parameter
    ([RegExpHost]). *)

Inductive atom : Type :=
  | Lit (c : ascii)
  | AnyChar.

Definition is_syntax_char (c : ascii) : bool :=
  existsb (Ascii.eqb c)
    ["^"; "$"; "\"; "."; "*"; "+"; "?"; "("; ")"; "["; "]"; "{"; "}"; "|"]%char.

Definition is_line_terminator (c : ascii) : bool :=
  let n := nat_of_ascii c in ((n =? 10) || (n =? 13))%nat.

Definition atom_matches (a : atom) (c : ascii) : bool :=
  match a with
  | Lit d => Ascii.eqb d c
  | AnyChar => negb (is_line_terminator c)
  end.

Inductive parsed : Type :=
  | Atoms (l : list atom)
  | Malformed           (* the constructor throws a SyntaxError *)
  | Beyond.             (* a pattern outside the modelled fragment *)

Definition cons_atom (a : atom) (p : parsed) : parsed :=
  match p with
  | Atoms l => Atoms (a :: l)
  | other => other
  end.

Fixpoint parse_pattern (p : str) : parsed :=
  match p with
  | [] => Atoms []
  | c :: rest =>
      if Ascii.eqb c "\" then
        match rest with
        | [] => Malformed                       (* \ at end of pattern *)
        | d :: rest' =>
            if is_syntax_char d then cons_atom (Lit d) (parse_pattern rest')
            else Beyond
        end
      else if Ascii.eqb c "." then cons_atom AnyChar (parse_pattern rest)
      else if is_syntax_char c then Beyond
      else cons_atom (Lit c) (parse_pattern rest)
  end.

(** Does the atom sequence match at the start of [s]? *)
Fixpoint match_here (pat : list atom) (s : str) : bool :=
  match pat, s with
  | [], _ => true
  | a :: pat', c :: s' => atom_matches a c && match_here pat' s'
  | _ :: _, [] => false
  end.

(** [rx.test(s)] for a fresh global regex: is there a match anywhere? *)
Fixpoint frag_test (pat : list atom) (s : str) : bool :=
  match_here pat s ||
  match s with
  | [] => false
  | _ :: s' => frag_test pat s'
  end.

(** [s.replace(rx, repl)] for a global regex without capture groups:
    matches are taken left to right and do not overlap; after an empty
    match the scan moves one character on.  [skip] counts the characters
    of the current match still to be dropped.  The replacement text is
    inserted as it is: the code only passes texts in which every [$] is
    followed by a digit, and with no capture group such a [$n] stands for
    itself. *)
Fixpoint frag_replace_from (pat : list atom) (repl : str) (s : str)
    (skip : nat) : str :=
  match s with
  | [] => match skip with
          | 0 => if match_here pat [] then repl else []
          | S _ => []
          end
  | c :: s' =>
      match skip with
      | S k => frag_replace_from pat repl s' k
      | 0 =>
          if match_here pat s then
            repl ++ match length pat with
                    | 0 => c :: frag_replace_from pat repl s' 0
                    | S n => frag_replace_from pat repl s' n
                    end
          else c :: frag_replace_from pat repl s' 0
      end
  end.

Definition frag_replace (pat : list atom) (s repl : str) : str :=
  frag_replace_from pat repl s 0.

(** A regex object, as the two operations the code uses. *)
Record RegExp : Type := mkRegExp {
  test : str -> bool;                 (* rx.test(s) *)
  replace_in : str -> str -> str      (* s.replace(rx, repl) *)
}.

Definition frag_RegExp (pat : list atom) : RegExp :=
  {| test := frag_test pat; replace_in := frag_replace pat |}.

(** The engine on the patterns outside the fragment: [None] when the
    constructor throws. *)
Class RegExpHost : Type := { RegExp_beyond : str -> option RegExp }.

(** A host that rejects every pattern outside the fragment; it serves to
    evaluate inputs whose patterns are inside it. *)
Definition fragment_host : RegExpHost := {| RegExp_beyond := fun _ => None |}.

Section Transformer.

Context {host : RegExpHost}.

(** [new RegExp(p, "g")] *)
Definition new_RegExp (p : str) : option RegExp :=
  match parse_pattern p with
  | Atoms l => Some (frag_RegExp l)
  | Malformed => None
  | Beyond => RegExp_beyond p
  end.

(** [key.replace(/\$/g, "\\$")] *)
Definition escape_dollar (key : str) : str :=
  flat_map (fun c => if Ascii.eqb c "$" then ["\"; "$"]%char else [c]) key.

(** [keys.sort((a, b) => b.length - a.length)]: a stable sort, longest
    key first. *)
Fixpoint insert_key (k : str) (l : list str) : list str :=
  match l with
  | [] => [k]
  | h :: t => if (length h <=? length k)%nat then k :: h :: t
              else h :: insert_key k t
  end.

Fixpoint sort_keys (l : list str) : list str :=
  match l with
  | [] => []
  | k :: t => insert_key k (sort_keys t)
  end.

(** The inner loop over an array value: push each item and extend
    [concatKeys] by the placeholder just assigned. *)
Fixpoint spread (items : list value) (out_parameters : list value)
    (concatKeys : str) : list value * str :=
  match items with
  | [] => (out_parameters, concatKeys)
  | item :: rest =>
      let out_parameters' := out_parameters ++ [item] in
      let sep : str := match concatKeys with [] => [] | _ => ", " end in
      spread rest out_parameters'
        (concatKeys ++ sep ++ "$"%char :: show_nat (length out_parameters'))
  end.

(** The items a [for (const item of value)] loop goes through. *)
Definition items_of (v : value) : list value :=
  match v with
  | VArr items => items
  | _ => []
  end.

(** One iteration of [for (const key of keys)]. *)
Definition step (in_params : object) (key : str)
    (st : str * list value) : result (str * list value) :=
  let '(out_query, out_parameters) := st in
  if negb (startsWith key "$") then Throw (InvalidParameterName key)
  else
    let escapedKey := escape_dollar key in
    match new_RegExp escapedKey with
    | None => Throw (SyntaxError escapedKey)
    | Some rxKey =>
        if negb (test rxKey out_query) then Ok st
        else if isArray (get in_params key) then
          let '(out_parameters', concatKeys) :=
            spread (items_of (get in_params key)) out_parameters [] in
          Ok (replace_in rxKey out_query concatKeys, out_parameters')
        else
          let out_parameters' := out_parameters ++ [get in_params key] in
          Ok (replace_in rxKey out_query
                ("$"%char :: show_nat (length out_parameters')),
              out_parameters')
    end.

Fixpoint loop (in_params : object) (keys : list str)
    (st : str * list value) : result (str * list value) :=
  match keys with
  | [] => Ok st
  | key :: rest =>
      match step in_params key st with
      | Ok st' => loop in_params rest st'
      | Throw e => Throw e
      end
  end.

Definition transformQuery (in_query : str) (in_params : params)
    : result (str * params) :=
  match in_params with
  | NoParams => Ok (in_query, NoParams)
  | ArrayParams l => Ok (in_query, ArrayParams l)
  | NamedParams o =>
      let keys := sort_keys (Object_keys o) in
      match loop o keys (in_query, []) with
      | Ok (out_query, out_parameters) =>
          Ok (out_query, ArrayParams out_parameters)
      | Throw e => Throw e
      end
  end.

End Transformer.

(* ================================================================== *)
(** ** The pool, its clients and the trace of what is done to them

    [pool.connect()], [client.query(text, values)] and [client.release()]
    belong to the [pg] driver.  Their outcomes are a parameter ([PgHost]);
    each may depend on everything that happened before.  A computation
    threads the trace of the calls made so far and either returns or
    throws; awaiting a promise is sequencing. *)

Definition client := nat.

(** A result row: its columns in [Object.keys] order. *)
Definition row := object.

Inductive log_level : Type := DEBUG | INFO | WARN | ERROR.

Inductive event : Type :=
  | PoolConnect (r : result client)
  | ClientQuery (c : client) (text : str) (values : params)
      (r : result (list row))
  | ClientRelease (c : client)
  | Logged (level : log_level).

Definition trace := list event.

(** What the driver answers: a promise resolves, or rejects with an error
    of the driver's own. *)
Inductive settled (A : Type) : Type :=
  | Resolved (a : A)
  | Rejected (code : nat).
Arguments Resolved {A} a.
Arguments Rejected {A} code.

Definition awaited {A} (s : settled A) : result A :=
  match s with
  | Resolved a => Ok a
  | Rejected code => Throw (HostError code)
  end.

Class PgHost : Type := {
  pool_connect : trace -> settled client;
  client_query : trace -> client -> str -> params -> settled (list row)
}.

Definition M (A : Type) : Type := trace -> result A * trace.

Definition ret {A} (a : A) : M A := fun t => (Ok a, t).

Definition throw {A} (e : error) : M A := fun t => (Throw e, t).

Definition bind {A B} (m : M A) (f : A -> M B) : M B :=
  fun t => match m t with
           | (Ok a, t') => f a t'
           | (Throw e, t') => (Throw e, t')
           end.

Notation "x <- m ;; k" := (bind m (fun x => k))
  (at level 61, m at next level, right associativity).
Notation "m ;;; k" := (bind m (fun _ => k))
  (at level 61, right associativity).

Definition lift {A} (r : result A) : M A := fun t => (r, t).

Definition emit (ev : event) : M unit := fun t => (Ok tt, t ++ [ev]).

(** [try { body } catch (error) { handler }] *)
Definition try_catch {A} (body : M A) (handler : error -> M A) : M A :=
  fun t => match body t with
           | (Throw e, t') => handler e t'
           | done => done
           end.

(** [try { body } finally { final }]: the outcome of [body] stands unless
    [final] throws. *)
Definition try_finally {A} (body : M A) (final : M unit) : M A :=
  fun t => let '(r, t') := body t in
           match final t' with
           | (Ok _, t'') => (r, t'')
           | (Throw e, t'') => (Throw e, t'')
           end.

Definition logger_log : M unit := emit (Logged DEBUG).
Definition logger_error : M unit := emit (Logged ERROR).

Section Executor.

Context {host : RegExpHost} {pg : PgHost}.

(** [await pool.connect()] *)
Definition connect : M client :=
  fun t => let r := awaited (pool_connect t) in (r, t ++ [PoolConnect r]).

(** [(await client.query(text, values)).rows] *)
Definition query_rows (c : client) (text : str) (values : params)
    : M (list row) :=
  fun t => let r := awaited (client_query t c text values) in
           (r, t ++ [ClientQuery c text values r]).

(** [client.release()] *)
Definition release (c : client) : M unit := emit (ClientRelease c).

Definition beginTransaction : M client :=
  client <- connect ;;
  query_rows client "BEGIN" NoParams ;;;
  ret client.

Definition commitTransaction (client : client) : M unit :=
  query_rows client "COMMIT" NoParams ;;;
  release client.

Definition rollbackTransaction (client : client) : M unit :=
  query_rows client "ROLLBACK" NoParams ;;;
  release client.

Definition queryMultiple (query : str) (queryParams : params)
    (client : option client) : M (list row) :=
  owned <- match client with
           | Some c => ret (false, c)
           | None =>
               c <- try_catch connect
                      (fun error => logger_error ;;; throw error) ;;
               ret (true, c)
           end ;;
  let '(isClientCreatedHere, client) := owned in
  try_finally
    (try_catch
       (transformedQueryAndParams <- lift (transformQuery query queryParams) ;;
        logger_log ;;;
        rows <- query_rows client (fst transformedQueryAndParams)
                  (snd transformedQueryAndParams) ;;
        ret rows)
       (fun error => logger_error ;;; logger_error ;;; throw error))
    (if isClientCreatedHere then release client else ret tt).

Definition query (query : str) (queryParams : params)
    (client : option client) : M unit :=
  queryMultiple query queryParams client ;;;
  ret tt.

(** [rows[0]]: [None] stands for [undefined]. *)
Definition querySingle (query : str) (queryParams : params)
    (client : option client) : M (option row) :=
  rows <- queryMultiple query queryParams client ;;
  ret (nth_error rows 0).

(** [row[Object.keys(row)[0]]]; on a row without columns the key is
    [undefined] and so is the value. *)
Definition first_column (r : row) : value :=
  match Object_keys r with
  | [] => VUndefined
  | k :: _ => get r k
  end.

Definition queryScalar (query : str) (queryParams : params)
    (client : option client) : M value :=
  row <- querySingle query queryParams client ;;
  match row with
  | None => ret VNull
  | Some r => ret (first_column r)
  end.

(** [queryMultiple] before transactions (v1.0), which takes no client:
    the connection is acquired inside the [try], and [client] is still
    [null] in the [finally] block when the acquisition failed. *)
Definition queryMultiple_v1_0 (query : str) (queryParams : params)
    : M (list row) :=
  fun t0 =>
    match connect t0 with
    | (Throw error, t1) =>
        try_finally (logger_error ;;; logger_error ;;; throw error)
          (ret tt) t1
    | (Ok client, t1) =>
        try_finally
          (try_catch
             (transformedQueryAndParams <-
                lift (transformQuery query queryParams) ;;
              logger_log ;;;
              rows <- query_rows client (fst transformedQueryAndParams)
                        (snd transformedQueryAndParams) ;;
              ret rows)
             (fun error => logger_error ;;; logger_error ;;; throw error))
          (release client) t1
    end.

End Executor.

(* ================================================================== *)
(** ** Reading a trace *)

(** How many times [client.release()] was called on [c]. *)
Fixpoint releases_of (c : client) (evs : trace) : nat :=
  match evs with
  | [] => 0
  | ClientRelease c' :: rest =>
      (if Nat.eqb c' c then 1 else 0) + releases_of c rest
  | _ :: rest => releases_of c rest
  end.

Definition is_connect (ev : event) : bool :=
  match ev with PoolConnect _ => true | _ => false end.

Definition is_query (ev : event) : bool :=
  match ev with ClientQuery _ _ _ _ => true | _ => false end.

(** The calls that reach the driver (everything but logging). *)
Definition driver_calls (evs : trace) : trace :=
  filter (fun ev => match ev with Logged _ => false | _ => true end) evs.

(** What one call of a query function may do with connections, given
    the client it was handed and the trace [t] it started from: with a
    caller's client, no acquisition and no release; without one, a single
    acquisition first and, when it succeeds, a single release of that
    client as the last thing done; when it fails, nothing else reaches
    the driver. *)
Definition release_discipline {pg : PgHost} (supplied : option client)
    (t t' : trace) : Prop :=
  exists evs, t' = t ++ evs /\
    match supplied with
    | Some _ =>
        (forall c, releases_of c evs = 0) /\ existsb is_connect evs = false
    | None =>
        match pool_connect t with
        | Rejected code =>
            driver_calls evs = [PoolConnect (Throw (HostError code))]
        | Resolved c =>
            exists mid,
              evs = PoolConnect (Ok c) :: mid ++ [ClientRelease c] /\
              (forall c', releases_of c' mid = 0) /\
              existsb is_connect mid = false
        end
    end.

(** [c] was released exactly once between [t] and [t']. *)
Definition released_exactly_once (c : client) (t t' : trace) : Prop :=
  exists evs, t' = t ++ evs /\ releases_of c evs = 1.

(** Sample drivers, to run the functions on concrete inputs: the pool
    hands out client 7 (or refuses), and a statement is rejected when
    [rejects] says so and answers [rows] otherwise. *)
Definition sample_pg (pool_up : bool) (rejects : str -> bool)
    (rows : list row) : PgHost :=
  {| pool_connect := fun _ => if pool_up then Resolved 7 else Rejected 1;
     client_query := fun _ _ text _ =>
       if rejects text then Rejected 2 else Resolved rows |}.

(* ================================================================== *)
(** ** Vocabulary of the properties *)

(** [longer_first a b]: key [a] may come before key [b]. *)
Definition longer_first (a b : str) : Prop := length b <= length a.

(** The keys of a given length, in the order of the list. *)
Definition of_length (n : nat) (l : list str) : list str :=
  filter (fun k => Nat.eqb (length k) n) l.

(** [p] is a proper prefix of [k]. *)
Definition proper_prefix (p k : str) : Prop :=
  exists rest, rest <> [] /\ k = p ++ rest.

(** Does the text [tok] occur in [s]? *)
Fixpoint occurs (tok s : str) : bool :=
  startsWith s tok ||
  match s with
  | [] => false
  | _ :: s' => occurs tok s'
  end.

(** A key in which no character other than [$] is a syntax character of
    the pattern language. *)
Definition plain_key (k : str) : bool :=
  forallb (fun c => Ascii.eqb c "$" || negb (is_syntax_char c)) k.

(** [Scan tok repl s s']: [s'] is [s] read left to right with every
    occurrence of [tok] met on the way replaced by [repl]; an occurrence
    that starts inside the one just replaced is not one met on the way. *)
Inductive Scan (tok repl : str) : str -> str -> Prop :=
  | Scan_end : Scan tok repl [] []
  | Scan_hit (rest out : str) :
      Scan tok repl rest out ->
      Scan tok repl (tok ++ rest) (repl ++ out)
  | Scan_miss (c : ascii) (s out : str) :
      startsWith (c :: s) tok = false ->
      Scan tok repl s out ->
      Scan tok repl (c :: s) (c :: out).

(** The placeholder [$n], and the comma-joined placeholders
    [$a+1, ..., $a+n] assigned to an array of [n] items when [a]
    parameters were already listed. *)
Definition slot_text (n : nat) : str := "$"%char :: show_nat n.

Fixpoint join (sep : str) (l : list str) : str :=
  match l with
  | [] => []
  | x :: rest =>
      match rest with
      | [] => x
      | _ :: _ => x ++ sep ++ join sep rest
      end
  end.

Definition group_text (a n : nat) : str :=
  join ", " (map slot_text (seq (S a) n)).

(** What a key's value adds to the parameter list. *)
Definition contributes (v : value) : list value :=
  match v with
  | VArr items => items
  | _ => [v]
  end.

(** What the occurrences of a key become, [a] parameters being listed
    already. *)
Definition replacement (a : nat) (v : value) : str :=
  match v with
  | VArr items => group_text a (length items)
  | _ => slot_text (S a)
  end.

(* ================================================================== *)
(** ** Queries written with named placeholders

    The specification's data model: a named placeholder is a [$]-prefixed
    identifier, a positional one is [$] followed by digits.  A query is
    read here as a sequence of pieces: plain characters, named
    placeholders still to be replaced, and positional placeholders. *)

Definition is_letter (c : ascii) : bool :=
  let n := nat_of_ascii c in
  (((65 <=? n) && (n <=? 90)) || ((97 <=? n) && (n <=? 122)))%nat.

Definition is_ident_start (c : ascii) : bool :=
  is_letter c || Ascii.eqb c "_".

Definition is_ident_char (c : ascii) : bool :=
  is_ident_start c || is_digit c.

Definition is_placeholder_name (k : str) : bool :=
  match k with
  | d :: c :: rest =>
      Ascii.eqb d "$" && is_ident_start c && forallb is_ident_char rest
  | _ => false
  end.

Inductive piece : Type :=
  | Text (c : ascii)
  | Name (k : str)
  | Slot (n : nat).

Definition render_piece (p : piece) : str :=
  match p with
  | Text c => [c]
  | Name k => k
  | Slot n => slot_text n
  end.

Definition render (ps : list piece) : str := flat_map render_piece ps.

Definition names (ps : list piece) : list str :=
  flat_map (fun p => match p with Name k => [k] | _ => [] end) ps.

Definition slots (ps : list piece) : list nat :=
  flat_map (fun p => match p with Slot n => [n] | _ => [] end) ps.

(** What follows a placeholder does not continue an identifier. *)
Definition ends_token (rest : list piece) : bool :=
  match rest with
  | Text c :: _ => negb (is_ident_char c)
  | _ => true
  end.

(** Plain characters are not [$], and every placeholder ends where its
    piece ends. *)
Fixpoint spaced (ps : list piece) : bool :=
  match ps with
  | [] => true
  | Text c :: rest => negb (Ascii.eqb c "$") && spaced rest
  | _ :: rest => ends_token rest && spaced rest
  end.

Definition has_key (keys : list str) (k : str) : bool :=
  existsb (str_eqb k) keys.

(** A query in named style for the parameter object [o]: every key of
    [o] is a named placeholder, and the query is made of plain characters
    and of keys of [o]. *)
Definition named_query (o : object) (ps : list piece) : bool :=
  forallb is_placeholder_name (Object_keys o) &&
  spaced ps &&
  forallb (has_key (Object_keys o)) (names ps) &&
  match slots ps with [] => true | _ :: _ => false end.

(** The pieces of [group_text a n]. *)
Definition group (a n : nat) : list piece :=
  match seq (S a) n with
  | [] => []
  | i :: rest =>
      Slot i :: flat_map (fun j => [Text ","; Text " "; Slot j]) rest
  end.

Definition becomes (a : nat) (v : value) : list piece :=
  match v with
  | VArr items => group a (length items)
  | _ => [Slot (S a)]
  end.

(** Every piece [Name key] replaced by the pieces [g]. *)
Definition subst (key : str) (g : list piece) (ps : list piece)
    : list piece :=
  flat_map (fun p => match p with
                     | Name k => if str_eqb k key then g else [p]
                     | _ => [p]
                     end) ps.

(** The transformation read on pieces: a key used in the query lists
    what its value contributes and each of its pieces becomes the
    placeholders assigned to it. *)
Definition assign (o : object) (st : list piece * list value) (key : str)
    : list piece * list value :=
  let '(ps, out) := st in
  if has_key (names ps) key then
    (subst key (becomes (length out) (get o key)) ps,
     out ++ contributes (get o key))
  else st.

Definition assign_all (o : object) (keys : list str)
    (st : list piece * list value) : list piece * list value :=
  fold_left (assign o) keys st.

(** The indices of the positional placeholders of a query, in order of
    occurrence: a placeholder is [$] followed by digits, read as far as
    they go. *)
Inductive reading : Type :=
  | Outside
  | AfterDollar
  | InDigits (n : nat).

Definition flush (st : reading) : list nat :=
  match st with InDigits n => [n] | _ => [] end.

Definition digit_value (c : ascii) : nat := nat_of_ascii c - 48.

Fixpoint placeholders_from (s : str) (st : reading) : list nat :=
  match s with
  | [] => flush st
  | c :: s' =>
      if is_digit c then
        match st with
        | Outside => placeholders_from s' Outside
        | AfterDollar => placeholders_from s' (InDigits (digit_value c))
        | InDigits n =>
            placeholders_from s' (InDigits (10 * n + digit_value c))
        end
      else
        flush st ++
        placeholders_from s'
          (if Ascii.eqb c "$" then AfterDollar else Outside)
  end.

Definition placeholders (s : str) : list nat := placeholders_from s Outside.

(** The pieces at hand when the key [P] is processed: their named
    placeholders are placeholder names no longer than [P]. *)
Definition bounded (P : str) (ps : list piece) : Prop :=
  forall k, In k (names ps) ->
    is_placeholder_name k = true /\ length k <= length P.

(** The positional placeholders among the pieces are exactly those of
    the parameters listed so far. *)
Definition covers (st : list piece * list value) : Prop :=
  forall i, In i (slots (fst st)) <-> 1 <= i <= length (snd st).

(** The claim about indices, as the specification states it: as many
    placeholders in the rewritten query as parameters in the list, and
    the indices met are exactly 1..N. *)
Definition indices_match (q : str) (out : list value) : Prop :=
  length (placeholders q) = length out /\
  forall i, In i (placeholders q) <-> 1 <= i <= length out.

(** Plain text as pieces. *)
Definition text (s : str) : list piece := map Text s.

(** The claim about prefixes, as the specification states it: when the
    loop reaches a key, no key that properly extends it occurs in the
    query, so that the shorter key cannot be matched inside an
    occurrence of the longer one. *)
Definition longer_key_gone {host : RegExpHost} (o : object) (q : str)
    : Prop :=
  forall (done : list str) (k_s : str) (todo : list str) (k_l : str)
         (st : str * list value),
    sort_keys (Object_keys o) = done ++ k_s :: todo ->
    In k_l (Object_keys o) ->
    proper_prefix k_s k_l ->
    loop o done (q, []) = Ok st ->
    occurs k_l (fst st) = false.

(** Nothing reached the driver between [t] and [t']. *)
Definition no_driver_call (t t' : trace) : Prop :=
  exists evs, t' = t ++ evs /\ driver_calls evs = [].

(** No statement was sent between [t] and [t']. *)
Definition no_statement_sent (t t' : trace) : Prop :=
  exists evs, t' = t ++ evs /\ existsb is_query evs = false.

(** The event, if it is a statement or a release, is on the client [c]. *)
Definition uses_only (c : client) (ev : event) : bool :=
  match ev with
  | ClientQuery c' _ _ _ => Nat.eqb c' c
  | ClientRelease c' => Nat.eqb c' c
  | _ => true
  end.

Section Transactions.

Context {host : RegExpHost} {pg : PgHost}.

(** A transaction as the README writes it: begin; then, in a [try], the
    statements, each handed the transaction's client, and the commit; in
    the [catch], the rollback. *)
Fixpoint run_statements (statements : list (str * params)) (c : client)
    : M unit :=
  match statements with
  | [] => ret tt
  | (q, p) :: rest => query q p (Some c) ;;; run_statements rest c
  end.

Definition transaction (statements : list (str * params)) : M unit :=
  client <- beginTransaction ;;
  try_catch
    (run_statements statements client ;;; commitTransaction client)
    (fun _ => rollbackTransaction client).

End Transactions.

(* ================================================================== *)
(** ** The environment, the logger and the pool options

    [process.env] gives each variable a string or [undefined]. *)

Definition environment := str -> option str.

(** An environment given by the list of the variables that are set. *)
Fixpoint env_of (vars : list (str * str)) : environment :=
  fun name =>
    match vars with
    | [] => None
    | (n, v) :: rest => if str_eqb n name then Some v else env_of rest name
    end.

(** [logLevel()] *)
Definition logLevel (env : environment) : nat :=
  match env "PG_CLIENT_HELPER_LOGLEVEL" with
  | None => 5
  | Some v =>
      if str_eqb v "DEBUG" then 1
      else if str_eqb v "INFO" then 2
      else if str_eqb v "WARN" then 3
      else if str_eqb v "ERROR" then 4
      else if str_eqb v "SILENT" then 5
      else 5
  end.

Inductive console_method : Type :=
  | console_log
  | console_info
  | console_warn
  | console_error.

(** What was written to the console, in order. *)
Definition console := list (console_method * str).

(** The four methods of [logger]; [DEBUG] names [logger.log]. *)
Definition logger (env : environment) (method : log_level) (args : str)
    : console :=
  match method with
  | DEBUG => if (logLevel env <=? 1)%nat then [(console_log, args)] else []
  | INFO => if (logLevel env <=? 2)%nat then [(console_info, args)] else []
  | WARN => if (logLevel env <=? 3)%nat then [(console_warn, args)] else []
  | ERROR => if (logLevel env <=? 4)%nat then [(console_error, args)] else []
  end.

(** The console methods reached by the logger calls of a trace. *)
Definition console_of (env : environment) (evs : trace)
    : list console_method :=
  flat_map (fun ev => match ev with
                      | Logged level => map fst (logger env level [])
                      | _ => []
                      end) evs.

(** [s.toLowerCase()] on 8-bit code units: the letters A-Z and the
    capital letters of Latin-1. *)
Definition lower (c : ascii) : ascii :=
  let n := nat_of_ascii c in
  if (((65 <=? n) && (n <=? 90)) || ((192 <=? n) && (n <=? 214))
      || ((216 <=? n) && (n <=? 222)))%nat
  then ascii_of_nat (n + 32)
  else c.

Definition toLowerCase (s : str) : str := map lower s.

(** [isTrue(value)]:
    [value === true || value === 1 || value?.toLowerCase() === "true"].
    [None] stands for the [TypeError] raised when [toLowerCase] is not a
    function of the value. *)
Definition isTrue (v : value) : option bool :=
  match v with
  | VBool true => Some true
  | VBool false => None
  | VNum n => if Z.eqb n 1 then Some true else None
  | VUndefined => Some false
  | VNull => Some false
  | VStr s => Some (str_eqb (toLowerCase s) "true")
  | VArr _ => None
  end.

(** The value of an environment variable. *)
Definition env_value (v : option str) : value :=
  match v with
  | Some s => VStr s
  | None => VUndefined
  end.

(** [+raw]: the number a string (or [undefined]) converts to, kept as
    its source. *)
Inductive number : Type := Number (raw : option str).

Inductive ssl_setting : Type :=
  | ssl_false
  | ssl_object (require : option bool) (rejectUnauthorized : bool)
      (ca : option str).

Inductive password_setting : Type :=
  | password_text (p : option str)
  | password_getAuthToken.

Record pgPoolOptions : Type := mkPoolOptions {
  host_option : option str;
  port_option : number;
  user_option : option str;
  password_option : password_setting;
  database_option : option str;
  ssl_option : ssl_setting
}.

Inductive init_error : Type :=
  | TypeError
  | CaBundleError.

(** What [getAuthToken] hands to [new Signer]. *)
Record signer_config : Type := mkSignerConfig {
  signer_hostname : option str;
  signer_port : number;
  signer_username : option str
}.

(** The closure [getAuthToken], called with the environment of the time
    of the call. *)
Definition getAuthToken (env : environment) : console * signer_config :=
  (logger env DEBUG "[RDS SIGNER] START - getting auth token",
   {| signer_hostname := env "PGHOST";
      signer_port := Number (env "PGPORT");
      signer_username := env "PGUSER" |}).

(** [ssl.require = b] and [ssl.rejectUnauthorized = b] on an [ssl]
    object. *)
Definition set_require (ssl : ssl_setting) (b : bool) : ssl_setting :=
  match ssl with
  | ssl_object _ reject ca => ssl_object (Some b) reject ca
  | ssl_false => ssl_false
  end.

Definition set_rejectUnauthorized (ssl : ssl_setting) (b : bool)
    : ssl_setting :=
  match ssl with
  | ssl_object require _ ca => ssl_object require b ca
  | ssl_false => ssl_false
  end.

(** [initPool()], up to the options handed to [new Pool].  [ca_file] is
    what reading [./rds-combined-ca-bundle.pem] gives, [None] when the
    read throws.  [isTrue] is only applied to the three flags, whose
    values do not change during the call. *)
Definition initPool (env : environment) (ca_file : option str)
    : console * (init_error + pgPoolOptions) :=
  let options password ssl :=
    {| host_option := env "PGHOST";
       port_option := Number (env "PGPORT");
       user_option := env "PGUSER";
       password_option := password;
       database_option := env "PGDATABASE";
       ssl_option := ssl |} in
  match isTrue (env_value (env "PG_SSL_REQUIRED")),
        isTrue (env_value (env "PG_SSL_ALLOW_SELFSIGNED")),
        isTrue (env_value (env "PG_USE_AWS_RDS_SIGNER")) with
  | Some required, Some selfsigned, Some signer =>
      let password := password_text (env "PGPASSWORD") in
      let ssl := ssl_false in
      let ssl :=
        if required || selfsigned then
          let ssl := ssl_object (Some true) false None in
          let ssl := if required then set_require ssl true else ssl in
          if selfsigned then set_rejectUnauthorized ssl false else ssl
        else ssl in
      if signer then
        let written :=
          logger env DEBUG "[RDS SIGNER] providing function as password" in
        match ca_file with
        | None => (written, inl CaBundleError)
        | Some ca =>
            let password := password_getAuthToken in
            let ssl := ssl_object None (negb selfsigned) (Some ca) in
            let ssl := if required then set_require ssl true else ssl in
            (written, inr (options password ssl))
        end
      else ([], inr (options password ssl))
  | _, _, _ => ([], inl TypeError)
  end.

(* ================================================================== *)
(** ** The query functions before transactions (v1.0), on
       [queryMultiple_v1_0] *)

Section ExecutorV1_0.

Context {host : RegExpHost} {pg : PgHost}.

Definition query_v1_0 (query : str) (queryParams : params) : M unit :=
  queryMultiple_v1_0 query queryParams ;;;
  ret tt.

Definition querySingle_v1_0 (query : str) (queryParams : params)
    : M (option row) :=
  rows <- queryMultiple_v1_0 query queryParams ;;
  ret (nth_error rows 0).

Definition queryScalar_v1_0 (query : str) (queryParams : params)
    : M value :=
  row <- querySingle_v1_0 query queryParams ;;
  match row with
  | None => ret VNull
  | Some r => ret (first_column r)
  end.

End ExecutorV1_0.

(** The statements sent in a trace. *)
Definition statements_of (evs : trace) : trace := filter is_query evs.

(** Started from [t], [old] and [new] end alike: the same result, the
    same calls to the driver, and the same trace altogether when the
    pool hands out a client. *)
Definition same_from {pg : PgHost} {A : Type} (t : trace) (old new : M A)
    : Prop :=
  fst (old t) = fst (new t) /\
  driver_calls (snd (old t)) = driver_calls (snd (new t)) /\
  ((exists c, pool_connect t = Resolved c) -> old t = new t).

(** A key the loop cannot get past. *)
Definition refused {host : RegExpHost} (k : str) : Prop :=
  startsWith k "$" = false \/ new_RegExp (escape_dollar k) = None.

(** How severe a logger method is. *)
Definition severity (l : log_level) : nat :=
  match l with DEBUG => 0 | INFO => 1 | WARN => 2 | ERROR => 3 end.

(** Is the flag [name] set, as [isTrue] reads it? *)
Definition flag_on (env : environment) (name : str) : bool :=
  match isTrue (env_value (env name)) with
  | Some true => true
  | _ => false
  end.

(** [used] is [l] with some elements left out. *)
Inductive subsequence {A : Type} : list A -> list A -> Prop :=
  | subsequence_nil : subsequence [] []
  | subsequence_keep (x : A) (used l : list A) :
      subsequence used l -> subsequence (x :: used) (x :: l)
  | subsequence_skip (x : A) (used l : list A) :
      subsequence used l -> subsequence used (x :: l).

(* ================================================================== *)
(** ** Vocabulary of the properties of single keys *)

Definition is_empty_array (v : value) : bool :=
  match v with VArr [] => true | _ => false end.

(** No key of the object has the empty array as its value. *)
Definition no_empty_array (o : object) : bool :=
  forallb (fun k => negb (is_empty_array (get o k))) (Object_keys o).

(** Every key of the object starts with [$] and is plain. *)
Definition plain_keys (o : object) : bool :=
  forallb (fun k => startsWith k "$" && plain_key k) (Object_keys o).

(* ================================================================== *)
(** ** Row objects

    A row is an ordinary object, kept here as the list of its
    properties in the order of [Object.keys]: the names that are array
    indices first, in ascending numeric order, then the other names in
    the order in which they were created. *)

Definition numeral_value (k : str) : N :=
  fold_left (fun n c => (n * 10 + N.of_nat (nat_of_ascii c - 48))%N) k 0%N.

(** The array index a property name stands for: the name is the
    canonical decimal numeral of an integer below [2^32 - 1]. *)
Definition array_index (k : str) : option N :=
  match k with
  | [] => None
  | c :: rest =>
      if forallb is_digit k &&
         (negb (Ascii.eqb c "0") || match rest with [] => true | _ => false end)
      then
        if (numeral_value k <? 4294967295)%N then Some (numeral_value k)
        else None
      else None
  end.

(** [o[k] = v]: an existing property keeps its place and takes the new
    value; a new array index goes to its place among the indices; any
    other new name goes last. *)
Fixpoint js_set (o : object) (k : str) (v : value) : object :=
  match o with
  | [] => [(k, v)]
  | (k', v') :: rest =>
      if str_eqb k' k then (k, v) :: rest
      else
        match array_index k, array_index k' with
        | Some i, Some i' =>
            if (i <? i')%N then (k, v) :: (k', v') :: rest
            else (k', v') :: js_set rest k v
        | Some _, None => (k, v) :: (k', v') :: rest
        | None, _ => (k', v') :: js_set rest k v
        end
  end.

(** The row object the driver hands over for the columns of a result
    row: it starts from an empty object and assigns each column's value
    to the column's name, in the order in which the statement declares
    the columns. *)
Definition row_object (columns : list (str * value)) : row :=
  fold_left (fun o column => js_set o (fst column) (snd column)) columns [].

(** The value of the first column as the statement declares them. *)
Definition first_declared (columns : list (str * value)) : value :=
  match columns with
  | [] => VUndefined
  | (_, v) :: _ => v
  end.

(** A later column named [k'] leaves the property [k] first in the row
    object: it is another name, and not an array index that goes before
    [k]. *)
Definition stays_first (k k' : str) : bool :=
  negb (str_eqb k k') &&
  match array_index k', array_index k with
  | None, _ => true
  | Some i', Some i => (i <? i')%N
  | Some _, None => false
  end.

(* ================================================================== *)
(** * Properties *)

(** ** The examples of the test suite and of the README

    They hold whatever the engine does outside the modelled patterns. *)

Section TestSuite.

Context {host : RegExpHost}.

Example test_array_as_is :
  transformQuery "SELECT * FROM public.users WHERE id = $1"
    (ArrayParams [VNum 1])
  = Ok ("SELECT * FROM public.users WHERE id = $1" : str,
        ArrayParams [VNum 1]).
Proof. reflexivity. Qed.

Example test_named :
  transformQuery
    "SELECT * FROM public.users WHERE name = $name AND age = $age"
    (NamedParams [("$name" : str, VStr "John"); ("$age" : str, VNum 25)])
  = Ok ("SELECT * FROM public.users WHERE name = $1 AND age = $2" : str,
        ArrayParams [VStr "John"; VNum 25]).
Proof. vm_compute. reflexivity. Qed.

Example test_spread :
  transformQuery "SELECT * FROM public.users WHERE id IN ($ids)"
    (NamedParams [("$ids" : str, VArr [VNum 1; VNum 2; VNum 3])])
  = Ok ("SELECT * FROM public.users WHERE id IN ($1, $2, $3)" : str,
        ArrayParams [VNum 1; VNum 2; VNum 3]).
Proof. vm_compute. reflexivity. Qed.

Example test_mixed :
  transformQuery
    "SELECT * FROM public.users WHERE name = $name AND id IN ($ids)"
    (NamedParams [("$name" : str, VStr "John");
                  ("$ids" : str, VArr [VNum 1; VNum 2])])
  = Ok ("SELECT * FROM public.users WHERE name = $1 AND id IN ($2, $3)" : str,
        ArrayParams [VStr "John"; VNum 1; VNum 2]).
Proof. vm_compute. reflexivity. Qed.

Example test_invalid_name :
  transformQuery "SELECT * FROM public.users WHERE name = name"
    (NamedParams [("name" : str, VStr "John")])
  = Throw (InvalidParameterName "name").
Proof. reflexivity. Qed.

Example test_no_parameters :
  transformQuery "SELECT * FROM public.users" NoParams
  = Ok ("SELECT * FROM public.users" : str, NoParams).
Proof. reflexivity. Qed.

Example test_unused_parameter :
  transformQuery "SELECT * FROM users WHERE name = $name AND age = $age"
    (NamedParams [("$name" : str, VStr "John Doe"); ("$age" : str, VNum 30);
                  ("$unusedParam" : str, VStr "This is unused")])
  = Ok ("SELECT * FROM users WHERE name = $1 AND age = $2" : str,
        ArrayParams [VStr "John Doe"; VNum 30]).
Proof. vm_compute. reflexivity. Qed.

(** The README's example: the keys are taken by decreasing length, so
    [$email_address] is listed first. *)
Example readme_insert :
  transformQuery
    "INSERT INTO public.users (user_name, email_address, active) VALUES ($user_name, $email_address, $active)"
    (NamedParams [("$user_name" : str, VStr "John Doe");
                  ("$email_address" : str, VStr "john_doe@some.tld");
                  ("$active" : str, VBool true)])
  = Ok ("INSERT INTO public.users (user_name, email_address, active) VALUES ($2, $1, $3)" : str,
        ArrayParams [VStr "john_doe@some.tld"; VStr "John Doe"; VBool true]).
Proof. vm_compute. reflexivity. Qed.

End TestSuite.

(* ================================================================== *)
(** ** The order in which keys are processed *)

Lemma insert_key_perm (k : str) (l : list str) :
  Permutation (k :: l) (insert_key k l).
Proof.
  induction l as [|h t IH]; cbn; [reflexivity|].
  destruct (length h <=? length k)%nat; [reflexivity|].
  rewrite perm_swap. constructor. exact IH.
Qed.

Lemma sort_keys_perm (l : list str) : Permutation l (sort_keys l).
Proof.
  induction l as [|k t IH]; cbn; [constructor|].
  rewrite <- insert_key_perm. constructor. exact IH.
Qed.

Lemma sort_keys_In (l : list str) (k : str) : In k (sort_keys l) <-> In k l.
Proof.
  split; apply Permutation_in;
    [symmetry|]; apply sort_keys_perm.
Qed.

Lemma insert_key_sorted (k : str) (l : list str) :
  StronglySorted longer_first l -> StronglySorted longer_first (insert_key k l).
Proof.
  induction 1 as [|h t St IH Hh]; cbn.
  - repeat constructor.
  - destruct (length h <=? length k)%nat eqn:E.
    + apply Nat.leb_le in E.
      constructor; [constructor; assumption|].
      constructor; [exact E|].
      rewrite Forall_forall in *. intros x Hx.
      specialize (Hh x Hx). unfold longer_first in *. lia.
    + apply Nat.leb_gt in E.
      constructor; [exact IH|].
      rewrite Forall_forall in *. intros x Hx.
      apply (Permutation_in _ (Permutation_sym (insert_key_perm k t))) in Hx.
      destruct Hx as [<-|Hx]; [unfold longer_first; lia|auto].
Qed.

Lemma sort_keys_sorted (l : list str) :
  StronglySorted longer_first (sort_keys l).
Proof.
  induction l as [|k t IH]; cbn; [constructor|].
  apply insert_key_sorted, IH.
Qed.

Lemma of_length_insert_key (n : nat) (k : str) (l : list str) :
  StronglySorted longer_first l ->
  of_length n (insert_key k l) = of_length n (k :: l).
Proof.
  induction 1 as [|h t St IH Hh]; [reflexivity|].
  cbn [insert_key].
  destruct (length h <=? length k)%nat eqn:E; [reflexivity|].
  apply Nat.leb_gt in E.
  unfold of_length in *. cbn [filter] in *.
  rewrite IH.
  destruct (Nat.eqb (length h) n) eqn:Eh; [|reflexivity].
  destruct (Nat.eqb (length k) n) eqn:Ek; [|reflexivity].
  apply Nat.eqb_eq in Eh, Ek. lia.
Qed.

(** The sort is stable: keys of equal length keep their relative order. *)
Lemma sort_keys_stable (n : nat) (l : list str) :
  of_length n (sort_keys l) = of_length n l.
Proof.
  induction l as [|k t IH]; [reflexivity|].
  cbn [sort_keys].
  rewrite of_length_insert_key by apply sort_keys_sorted.
  unfold of_length in *. cbn [filter]. rewrite IH. reflexivity.
Qed.

Lemma sorted_after (l : list str) (done todo : list str) (k : str) :
  StronglySorted longer_first l -> l = done ++ k :: todo ->
  Forall (longer_first k) todo.
Proof.
  intros St ->. induction done as [|d done IH]; cbn in St.
  - inversion St; assumption.
  - inversion St; auto.
Qed.

Lemma sorted_suffix (done todo : list str) :
  StronglySorted longer_first (done ++ todo) ->
  StronglySorted longer_first todo.
Proof.
  induction done as [|d done IH]; cbn; [auto|].
  intros St. inversion St; auto.
Qed.

Lemma proper_prefix_shorter (p k : str) :
  proper_prefix p k -> length p < length k.
Proof.
  intros (rest & Hne & ->). rewrite length_app.
  destruct rest; [congruence|cbn; lia].
Qed.

(** A key is reached only after every key that properly extends it. *)
Lemma longer_key_first (l : list str) (done todo : list str) (k_s k_l : str) :
  sort_keys l = done ++ k_s :: todo ->
  In k_l l -> proper_prefix k_s k_l ->
  In k_l done /\ ~ In k_l (k_s :: todo).
Proof.
  intros E Hin Hp.
  apply proper_prefix_shorter in Hp.
  assert (Hn : ~ In k_l (k_s :: todo)).
  { intros [->|H]; [lia|].
    pose proof (sorted_after _ _ _ _ (sort_keys_sorted l) E) as Hf.
    rewrite Forall_forall in Hf. specialize (Hf _ H).
    unfold longer_first in Hf. lia. }
  split; [|exact Hn].
  apply sort_keys_In in Hin. rewrite E in Hin.
  apply in_app_or in Hin. tauto.
Qed.

(* ================================================================== *)
(** ** Keys that are plain text as patterns *)

Lemma startsWith_app (k s : str) : startsWith (k ++ s) k = true.
Proof.
  induction k as [|c k IH]; cbn; [reflexivity|].
  rewrite Ascii.eqb_refl. exact IH.
Qed.

Lemma startsWith_split (s k : str) :
  startsWith s k = true -> exists rest, s = k ++ rest.
Proof.
  revert s. induction k as [|c k IH]; intros s H.
  - exists s. reflexivity.
  - destruct s as [|d s]; cbn in H; [discriminate|].
    apply andb_true_iff in H. destruct H as [Hc H].
    apply Ascii.eqb_eq in Hc. subst d.
    destruct (IH s H) as [rest ->]. exists rest. reflexivity.
Qed.

Lemma match_here_lits (k s : str) :
  match_here (map Lit k) s = startsWith s k.
Proof.
  revert s. induction k as [|c k IH]; intros s; cbn; [reflexivity|].
  destruct s as [|d s]; [reflexivity|].
  cbn. rewrite IH. reflexivity.
Qed.

Lemma frag_test_lits (k s : str) : frag_test (map Lit k) s = occurs k s.
Proof.
  induction s as [|c s IH]; cbn -[match_here startsWith];
    rewrite match_here_lits; [reflexivity|].
  rewrite IH. reflexivity.
Qed.

Lemma parse_escape_plain (k : str) :
  plain_key k = true -> parse_pattern (escape_dollar k) = Atoms (map Lit k).
Proof.
  induction k as [|c k IH]; [reflexivity|].
  cbn [plain_key forallb]. intros H.
  apply andb_true_iff in H. destruct H as [Hc Hk].
  specialize (IH Hk). unfold escape_dollar in *. cbn [flat_map map].
  destruct (Ascii.eqb c "$") eqn:Ed.
  - apply Ascii.eqb_eq in Ed. subst c.
    cbn [app parse_pattern]. rewrite IH. reflexivity.
  - cbn [orb] in Hc. apply negb_true_iff in Hc.
    cbn [app parse_pattern].
    destruct (Ascii.eqb c "\") eqn:Eb.
    { apply Ascii.eqb_eq in Eb. subst c. vm_compute in Hc. discriminate. }
    destruct (Ascii.eqb c ".") eqn:Edot.
    { apply Ascii.eqb_eq in Edot. subst c. vm_compute in Hc. discriminate. }
    rewrite Hc, IH. reflexivity.
Qed.

Lemma frag_replace_skip (pat : list atom) (repl a s : str) :
  frag_replace_from pat repl (a ++ s) (length a) =
  frag_replace_from pat repl s 0.
Proof.
  induction a as [|c a IH]; [reflexivity|]. cbn. exact IH.
Qed.

(** On a match of a non-empty literal key the replacement is emitted and
    the scan resumes after the key. *)
Lemma frag_replace_hit (k repl rest : str) :
  k <> [] ->
  frag_replace_from (map Lit k) repl (k ++ rest) 0 =
  repl ++ frag_replace_from (map Lit k) repl rest 0.
Proof.
  destruct k as [|c k]; [congruence|]. intros _.
  cbn [app frag_replace_from].
  rewrite match_here_lits.
  change (c :: k ++ rest) with ((c :: k) ++ rest).
  rewrite startsWith_app.
  cbn [map length]. rewrite length_map.
  rewrite frag_replace_skip. reflexivity.
Qed.

Lemma frag_replace_miss (k repl : str) (c : ascii) (s : str) :
  startsWith (c :: s) k = false ->
  frag_replace_from (map Lit k) repl (c :: s) 0 =
  c :: frag_replace_from (map Lit k) repl s 0.
Proof.
  intros H. cbn [frag_replace_from].
  rewrite match_here_lits, H. reflexivity.
Qed.

Lemma frag_replace_nil (k repl : str) :
  k <> [] -> frag_replace_from (map Lit k) repl [] 0 = [].
Proof.
  destruct k; [congruence|reflexivity].
Qed.

(** With a literal key, [replace] is the left-to-right scan. *)
Lemma frag_replace_scans (k repl s : str) :
  k <> [] -> Scan k repl s (frag_replace (map Lit k) s repl).
Proof.
  intros Hk. unfold frag_replace.
  remember (length s) as n eqn:Hn.
  assert (Hle : length s <= n) by lia. clear Hn.
  revert s Hle. induction n as [|n IH]; intros s Hle.
  - destruct s; [|cbn in Hle; lia].
    rewrite frag_replace_nil by assumption. constructor.
  - destruct s as [|c s].
    + rewrite frag_replace_nil by assumption. constructor.
    + destruct (startsWith (c :: s) k) eqn:E.
      * destruct (startsWith_split _ _ E) as [rest Hs].
        rewrite Hs, frag_replace_hit by assumption.
        constructor. apply IH.
        assert (length (c :: s) = length k + length rest)
          by (rewrite Hs; apply length_app).
        destruct k; [congruence|]. cbn in *. lia.
      * rewrite frag_replace_miss by assumption.
        constructor; [assumption|]. apply IH. cbn in Hle. lia.
Qed.

(** The scan has one result. *)
Lemma Scan_nil_inv (k repl out : str) :
  k <> [] -> Scan k repl [] out -> out = [].
Proof.
  intros Hk H. inversion H as [|rest o H' E|]; [reflexivity|].
  destruct k; [congruence|discriminate].
Qed.

Lemma Scan_functional (k repl s out1 out2 : str) :
  k <> [] -> Scan k repl s out1 -> Scan k repl s out2 -> out1 = out2.
Proof.
  intros Hk H1. revert out2.
  induction H1 as [|rest out H1 IH|c s out Hm H1 IH]; intros out2 H2.
  - symmetry. eapply Scan_nil_inv; eauto.
  - inversion H2 as [E|rest2 o2 H2' E|c2 s2 o2 Hm2 H2' E].
    + destruct k; [congruence|discriminate].
    + apply app_inv_head in E. subst rest2. f_equal. auto.
    + rewrite E, startsWith_app in Hm2. discriminate.
  - inversion H2 as [|rest2 o2 H2' E|c2 s2 o2 Hm2 H2' E]; subst.
    + rewrite <- E, startsWith_app in Hm. discriminate.
    + f_equal. auto.
Qed.

(** ** The placeholders assigned to a value *)

Lemma join_cons (sep x : str) (l : list str) :
  join sep (x :: l) = x ++ flat_map (fun y => sep ++ y) l.
Proof.
  revert x. induction l as [|y l IH]; intros x.
  - cbn. rewrite app_nil_r. reflexivity.
  - change (join sep (x :: y :: l)) with (x ++ sep ++ join sep (y :: l)).
    rewrite IH. cbn [flat_map]. rewrite <- app_assoc. reflexivity.
Qed.

Lemma spread_more (items out : list value) (ck : str) :
  ck <> [] ->
  spread items out ck =
  (out ++ items,
   ck ++ flat_map (fun y => (", " : str) ++ y)
           (map slot_text (seq (S (length out)) (length items)))).
Proof.
  revert out ck. induction items as [|x items IH]; intros out ck Hck.
  - cbn. rewrite !app_nil_r. reflexivity.
  - cbn [spread].
    rewrite IH by (destruct ck; [congruence|discriminate]).
    rewrite length_app, Nat.add_1_r.
    rewrite <- !app_assoc. cbn [app].
    destruct ck as [|c ck]; [congruence|].
    cbn [length seq map flat_map].
    rewrite <- !app_assoc. reflexivity.
Qed.

(** The inner loop lists the items and yields their comma-joined
    placeholders. *)
Lemma spread_spec (items out : list value) :
  spread items out [] = (out ++ items, group_text (length out) (length items)).
Proof.
  destruct items as [|x items]; [cbn; rewrite app_nil_r; reflexivity|].
  cbn [spread]. rewrite spread_more by discriminate.
  rewrite length_app, Nat.add_1_r.
  rewrite <- app_assoc. cbn [app].
  unfold group_text. cbn [length seq map]. rewrite join_cons.
  reflexivity.
Qed.

Section StepFacts.

Context {host : RegExpHost}.

Lemma new_RegExp_plain (k : str) :
  plain_key k = true ->
  new_RegExp (escape_dollar k) = Some (frag_RegExp (map Lit k)).
Proof.
  intros H. unfold new_RegExp. rewrite parse_escape_plain by assumption.
  reflexivity.
Qed.

(** One iteration on a plain key: an absent key is skipped; a present
    one lists what its value contributes and has its occurrences
    replaced. *)
Lemma step_plain (o : object) (key q : str) (out : list value) :
  startsWith key "$" = true -> plain_key key = true ->
  step o key (q, out) =
  if occurs key q then
    Ok (frag_replace (map Lit key) q (replacement (length out) (get o key)),
        out ++ contributes (get o key))
  else Ok (q, out).
Proof.
  intros Hd Hp. unfold step. rewrite Hd. cbn [negb].
  rewrite new_RegExp_plain by assumption.
  cbn [test replace_in frag_RegExp]. rewrite frag_test_lits.
  destruct (occurs key q); [|reflexivity]. cbn [negb].
  destruct (get o key) as [| |b|n|s|items] eqn:E; cbn [isArray items_of];
    try (unfold replacement, contributes, slot_text;
         rewrite length_app, Nat.add_1_r; reflexivity).
  rewrite spread_spec. reflexivity.
Qed.

End StepFacts.

(* ================================================================== *)
(** ** Characters and numerals *)

Ltac by_cases_on_char c :=
  destruct c as [[] [] [] [] [] [] [] []]; vm_compute; congruence.

Lemma ident_char_not_dollar (c : ascii) :
  is_ident_char c = true -> Ascii.eqb c "$" = false.
Proof. by_cases_on_char c. Qed.

Lemma ident_char_not_syntax (c : ascii) :
  is_ident_char c = true -> is_syntax_char c = false.
Proof. by_cases_on_char c. Qed.

Lemma digit_not_ident_start (c : ascii) :
  is_digit c = true -> is_ident_start c = false.
Proof. by_cases_on_char c. Qed.

Lemma digit_not_dollar (c : ascii) :
  is_digit c = true -> Ascii.eqb c "$" = false.
Proof. by_cases_on_char c. Qed.

Lemma uint_chars_digits (d : Decimal.uint) :
  forallb is_digit (uint_chars d) = true.
Proof. induction d; cbn [uint_chars forallb]; try rewrite IHd; reflexivity. Qed.

Lemma to_little_uint_nonnil (n : nat) (acc : Decimal.uint) :
  acc <> Decimal.Nil -> Nat.to_little_uint n acc <> Decimal.Nil.
Proof.
  revert acc. induction n as [|n IH]; intros acc H; cbn; [exact H|].
  apply IH. destruct acc; cbn; discriminate.
Qed.

Lemma show_nat_digits (n : nat) : forallb is_digit (show_nat n) = true.
Proof. apply uint_chars_digits. Qed.

Lemma show_nat_nonempty (n : nat) :
  exists d ds, show_nat n = d :: ds /\ is_digit d = true.
Proof.
  pose proof (show_nat_digits n) as Hd.
  unfold show_nat in *.
  assert (Hn : Nat.to_uint n <> Decimal.Nil).
  { unfold Nat.to_uint. intros H. apply DecimalFacts.rev_nil_inv in H.
    revert H. apply to_little_uint_nonnil. discriminate. }
  destruct (Nat.to_uint n); try congruence;
    cbn [uint_chars] in *; eexists; eexists; (split; [reflexivity|reflexivity]).
Qed.

(** Reading the digits of a numeral accumulates its value. *)
Lemma placeholders_digits (d : Decimal.uint) (s : str) (n : nat) :
  placeholders_from (uint_chars d ++ s) (InDigits n) =
  placeholders_from s (InDigits (Nat.of_uint_acc d n)).
Proof.
  revert n. induction d; intros n; cbn [uint_chars app]; [reflexivity|..];
    cbn [placeholders_from]; 
    match goal with |- context [is_digit ?c] =>
      change (is_digit c) with true end; cbv iota;
    rewrite IHd; cbn [Nat.of_uint_acc]; rewrite Nat.tail_mul_spec;
    apply f_equal; apply f_equal;
    match goal with |- context [digit_value ?c] =>
      let v := eval vm_compute in (digit_value c) in
      change (digit_value c) with v end;
    f_equal; lia.
Qed.

Lemma placeholders_numeral (n : nat) (s : str) :
  placeholders_from (show_nat n ++ s) AfterDollar =
  placeholders_from s (InDigits n).
Proof.
  rewrite <- (Unsigned.of_to n) at 2.
  unfold show_nat, Nat.of_uint.
  destruct (show_nat_nonempty n) as (d & ds & E & _).
  unfold show_nat in E.
  destruct (Nat.to_uint n) as [|u|u|u|u|u|u|u|u|u|u]; [discriminate|..];
    cbn [uint_chars app placeholders_from];
    match goal with |- context [is_digit ?c] =>
      change (is_digit c) with true end; cbv iota;
    rewrite placeholders_digits; cbn [Nat.of_uint_acc];
    rewrite !Nat.tail_mul_spec; reflexivity.
Qed.

(** A numeral stops before anything that is not a digit. *)
Lemma placeholders_stop (n : nat) (s : str) :
  match s with [] => true | c :: _ => negb (is_digit c) end = true ->
  placeholders_from s (InDigits n) = n :: placeholders_from s Outside.
Proof.
  destruct s as [|c s]; [reflexivity|]. intros H.
  apply negb_true_iff in H. cbn [placeholders_from]. rewrite H.
  reflexivity.
Qed.

(* ================================================================== *)
(** ** Named placeholders as keys *)

Lemma str_eqb_eq (a b : str) : str_eqb a b = true <-> a = b.
Proof.
  unfold str_eqb. destruct (list_eq_dec ascii_dec a b); split; congruence.
Qed.

Lemma str_eqb_refl (a : str) : str_eqb a a = true.
Proof. apply str_eqb_eq. reflexivity. Qed.

Lemma str_eqb_neq (a b : str) : str_eqb a b = false <-> a <> b.
Proof.
  unfold str_eqb. destruct (list_eq_dec ascii_dec a b); split; congruence.
Qed.

Lemma has_key_In (keys : list str) (k : str) :
  has_key keys k = true <-> In k keys.
Proof.
  unfold has_key. rewrite existsb_exists. split.
  - intros (x & Hx & E). apply str_eqb_eq in E. subst. exact Hx.
  - intros H. exists k. split; [exact H|apply str_eqb_refl].
Qed.

Lemma name_shape (k : str) :
  is_placeholder_name k = true ->
  exists c rest, k = "$"%char :: c :: rest /\
                 is_ident_start c = true /\
                 forallb is_ident_char rest = true.
Proof.
  destruct k as [|d [|c rest]]; cbn; try discriminate.
  intros H. apply andb_true_iff in H. destruct H as [H Hr].
  apply andb_true_iff in H. destruct H as [Hd Hc].
  apply Ascii.eqb_eq in Hd. subst d. eauto.
Qed.

Lemma name_tail_ident (k : str) :
  is_placeholder_name k = true -> forallb is_ident_char (tl k) = true.
Proof.
  intros H. destruct (name_shape k H) as (c & rest & -> & Hc & Hr).
  cbn. unfold is_ident_char at 1. rewrite Hc, Hr. reflexivity.
Qed.

Lemma ident_plain (s : str) :
  forallb is_ident_char s = true -> plain_key s = true.
Proof.
  unfold plain_key. induction s as [|c s IH]; cbn [forallb]; [reflexivity|].
  intros H. apply andb_true_iff in H. destruct H as [Hc Hs].
  rewrite (ident_char_not_syntax c Hc), IH by assumption.
  rewrite orb_true_r. reflexivity.
Qed.

Lemma name_plain (k : str) :
  is_placeholder_name k = true -> plain_key k = true.
Proof.
  intros H. pose proof (name_tail_ident k H) as Ht.
  destruct (name_shape k H) as (c & rest & -> & _ & _).
  apply ident_plain in Ht. cbn in *. exact Ht.
Qed.

Lemma name_dollar (k : str) :
  is_placeholder_name k = true -> startsWith k "$" = true.
Proof.
  intros H. destruct (name_shape k H) as (c & rest & -> & _ & _).
  reflexivity.
Qed.

Lemma ident_no_dollar (s : str) :
  forallb is_ident_char s = true ->
  forallb (fun c => negb (Ascii.eqb c "$")) s = true.
Proof.
  induction s as [|c s IH]; cbn; [reflexivity|].
  intros H. apply andb_true_iff in H. destruct H as [Hc Hs].
  rewrite (ident_char_not_dollar c Hc), IH by assumption. reflexivity.
Qed.

Lemma digits_no_dollar (s : str) :
  forallb is_digit s = true ->
  forallb (fun c => negb (Ascii.eqb c "$")) s = true.
Proof.
  induction s as [|c s IH]; cbn; [reflexivity|].
  intros H. apply andb_true_iff in H. destruct H as [Hc Hs].
  rewrite (digit_not_dollar c Hc), IH by assumption. reflexivity.
Qed.

Section OneKey.

(** The key whose turn it is. *)
Variable P : str.
Hypothesis P_name : is_placeholder_name P = true.

Lemma not_at_other_char (c : ascii) (s : str) :
  Ascii.eqb c "$" = false -> startsWith (c :: s) P = false.
Proof.
  intros H. destruct (name_shape P P_name) as (c0 & rest & -> & _ & _).
  cbn [startsWith]. rewrite Ascii.eqb_sym, H. reflexivity.
Qed.

Lemma not_at_slot (n : nat) (s : str) :
  startsWith (slot_text n ++ s) P = false.
Proof.
  destruct (name_shape P P_name) as (c0 & rest & -> & Hc0 & _).
  destruct (show_nat_nonempty n) as (d & ds & E & Hd).
  unfold slot_text. rewrite E. cbn [app startsWith].
  rewrite Ascii.eqb_refl. cbn [andb].
  destruct (Ascii.eqb c0 d) eqn:Ec; [|reflexivity].
  apply Ascii.eqb_eq in Ec. subst d.
  rewrite (digit_not_ident_start c0 Hd) in Hc0. discriminate.
Qed.

(** Text without [$] is copied, and the key does not occur in it. *)
Lemma replace_copy (repl a s : str) :
  forallb (fun c => negb (Ascii.eqb c "$")) a = true ->
  frag_replace_from (map Lit P) repl (a ++ s) 0 =
  a ++ frag_replace_from (map Lit P) repl s 0.
Proof.
  induction a as [|c a IH]; cbn [forallb app]; [reflexivity|].
  intros H. apply andb_true_iff in H. destruct H as [Hc Ha].
  apply negb_true_iff in Hc.
  rewrite frag_replace_miss by (apply not_at_other_char; exact Hc).
  rewrite IH by assumption. reflexivity.
Qed.

Lemma occurs_copy (a s : str) :
  forallb (fun c => negb (Ascii.eqb c "$")) a = true ->
  occurs P (a ++ s) = occurs P s.
Proof.
  induction a as [|c a IH]; cbn [forallb app]; [reflexivity|].
  intros H. apply andb_true_iff in H. destruct H as [Hc Ha].
  apply negb_true_iff in Hc.
  cbn [occurs]. rewrite not_at_other_char by exact Hc.
  rewrite IH by assumption. reflexivity.
Qed.

Lemma bounded_tail (p : piece) (ps : list piece) :
  bounded P (p :: ps) -> bounded P ps.
Proof.
  intros H k Hk. apply H. unfold names in *. cbn [flat_map].
  apply in_or_app. right. exact Hk.
Qed.

(** What follows a placeholder does not start with an identifier
    character. *)
Lemma after_token (rest : list piece) (c : ascii) (x : str) :
  ends_token rest = true -> bounded P rest ->
  render rest = c :: x -> is_ident_char c = false.
Proof.
  destruct rest as [|[d|k|n] rest]; cbn [ends_token render flat_map
    render_piece]; intros He Hb E.
  - discriminate.
  - cbn in E. injection E as -> _. apply negb_true_iff in He. exact He.
  - destruct (Hb k) as [Hk _]; [cbn; auto|].
    destruct (name_shape k Hk) as (c0 & r & -> & _ & _).
    cbn in E. injection E as <- _. reflexivity.
  - unfold slot_text in E. cbn in E. injection E as <- _. reflexivity.
Qed.

(** Where a named placeholder starts, [P] matches exactly when the
    placeholder is [P]. *)
Lemma at_name (k : str) (rest : list piece) :
  bounded P (Name k :: rest) -> ends_token rest = true ->
  startsWith (k ++ render rest) P = str_eqb k P.
Proof.
  intros Hb He.
  destruct (str_eqb k P) eqn:E.
  - apply str_eqb_eq in E. subst k. apply startsWith_app.
  - apply str_eqb_neq in E.
    destruct (startsWith (k ++ render rest) P) eqn:Hs; [|reflexivity].
    exfalso.
    destruct (startsWith_split _ _ Hs) as [x Hx].
    destruct (Hb k) as [Hk Hlen]; [cbn; auto|].
    apply app_eq_app in Hx.
    destruct Hx as [l [[Hl _]|[Hl Hr]]].
    + assert (length k = length P + length l)
        by (rewrite Hl; apply length_app).
      destruct l; [rewrite app_nil_r in Hl; congruence|cbn in *; lia].
    + destruct l as [|c l]; [rewrite app_nil_r in Hl; congruence|].
      assert (Hc : is_ident_char c = true).
      { pose proof (name_tail_ident P P_name) as Ht.
        destruct (name_shape k Hk) as (c0 & r & -> & _ & _).
        rewrite Hl in Ht. cbn [tl app] in Ht.
        change (c0 :: r ++ c :: l) with ((c0 :: r) ++ c :: l) in Ht.
        rewrite forallb_app in Ht.
        apply andb_true_iff in Ht. destruct Ht as [_ Ht].
        cbn in Ht. apply andb_true_iff in Ht. tauto. }
      rewrite (after_token rest c (l ++ x) He (bounded_tail _ _ Hb) Hr) in Hc.
      discriminate.
Qed.

End OneKey.

(* ================================================================== *)
(** ** One key's turn, read on pieces *)

Lemma render_app (a b : list piece) : render (a ++ b) = render a ++ render b.
Proof. apply flat_map_app. Qed.

Lemma names_app (a b : list piece) : names (a ++ b) = names a ++ names b.
Proof. apply flat_map_app. Qed.

Lemma slots_app (a b : list piece) : slots (a ++ b) = slots a ++ slots b.
Proof. apply flat_map_app. Qed.

Lemma spaced_tail (p : piece) (ps : list piece) :
  spaced (p :: ps) = true -> spaced ps = true.
Proof.
  destruct p; cbn [spaced]; intros H; apply andb_true_iff in H; tauto.
Qed.

(** Replacing the key in the text is replacing its pieces. *)
Lemma replace_on_pieces (P : str) (g ps : list piece) :
  is_placeholder_name P = true ->
  spaced ps = true -> bounded P ps ->
  frag_replace (map Lit P) (render ps) (render g) = render (subst P g ps).
Proof.
  intros HP. unfold frag_replace.
  assert (HPne : P <> []).
  { destruct (name_shape P HP) as (c & r & -> & _). discriminate. }
  induction ps as [|p ps IH]; intros Hs Hb.
  - apply frag_replace_nil. exact HPne.
  - specialize (IH (spaced_tail _ _ Hs) (bounded_tail _ _ _ Hb)).
    destruct p as [c|k|n]; cbn [render flat_map render_piece subst];
      fold (render ps); fold (subst P g ps).
    + cbn [spaced] in Hs. apply andb_true_iff in Hs. destruct Hs as [Hc _].
      apply negb_true_iff in Hc. cbn [app].
      rewrite frag_replace_miss by (apply not_at_other_char; assumption).
      rewrite IH. reflexivity.
    + cbn [spaced] in Hs. apply andb_true_iff in Hs. destruct Hs as [He _].
      pose proof (at_name P HP k ps Hb He) as Hat.
      destruct (str_eqb k P) eqn:E.
      * apply str_eqb_eq in E. subst k.
        rewrite frag_replace_hit by exact HPne.
        rewrite render_app, IH. reflexivity.
      * destruct (Hb k) as [Hk _]; [cbn; auto|].
        pose proof (name_tail_ident k Hk) as Ht.
        destruct (name_shape k Hk) as (c0 & r & -> & _ & _).
        cbn [tl] in Ht. cbn [app] in *.
        rewrite frag_replace_miss by exact Hat.
        change (c0 :: r ++ render ps) with ((c0 :: r) ++ render ps).
        rewrite replace_copy by (try apply ident_no_dollar; assumption).
        rewrite IH. cbn [render flat_map render_piece app]. reflexivity.
    + unfold slot_text at 1. cbn [app].
      rewrite frag_replace_miss
        by (apply (not_at_slot P HP n (render ps))).
      rewrite replace_copy
        by (try apply digits_no_dollar; try apply show_nat_digits; assumption).
      rewrite IH. reflexivity.
Qed.

Lemma occurs_cons (tok : str) (c : ascii) (s : str) :
  occurs tok (c :: s) = startsWith (c :: s) tok || occurs tok s.
Proof. reflexivity. Qed.

(** The key occurs in the text exactly when one of the pieces is it. *)
Lemma occurs_on_pieces (P : str) (ps : list piece) :
  is_placeholder_name P = true ->
  spaced ps = true -> bounded P ps ->
  occurs P (render ps) = has_key (names ps) P.
Proof.
  intros HP.
  induction ps as [|p ps IH]; intros Hs Hb.
  - destruct (name_shape P HP) as (c & r & -> & _). reflexivity.
  - specialize (IH (spaced_tail _ _ Hs) (bounded_tail _ _ _ Hb)).
    destruct p as [c|k|n]; cbn [render flat_map render_piece names];
      fold (render ps); fold (names ps).
    + cbn [spaced] in Hs. apply andb_true_iff in Hs. destruct Hs as [Hc _].
      apply negb_true_iff in Hc. cbn [app]. rewrite occurs_cons.
      rewrite not_at_other_char by assumption. exact IH.
    + cbn [spaced] in Hs. apply andb_true_iff in Hs. destruct Hs as [He _].
      pose proof (at_name P HP k ps Hb He) as Hat.
      destruct (Hb k) as [Hk _]; [cbn; auto|].
      pose proof (name_tail_ident k Hk) as Ht.
      destruct (name_shape k Hk) as (c0 & r & Ek & _ & _).
      cbn [app]. unfold has_key. cbn [existsb]. fold (has_key (names ps) P).
      rewrite <- IH.
      rewrite Ek in Ht, Hat |- *. cbn [tl] in Ht. cbn [app] in *.
      rewrite occurs_cons, Hat.
      change (c0 :: r ++ render ps) with ((c0 :: r) ++ render ps).
      rewrite (occurs_copy P HP) by (apply ident_no_dollar; assumption).
      destruct (list_eq_dec ascii_dec ("$"%char :: c0 :: r) P) as [->|Hne].
      * rewrite !str_eqb_refl. reflexivity.
      * assert (E1 : str_eqb ("$"%char :: c0 :: r) P = false)
          by (apply str_eqb_neq; assumption).
        assert (E2 : str_eqb P ("$"%char :: c0 :: r) = false)
          by (apply str_eqb_neq; congruence).
        rewrite E1, E2. reflexivity.
    + unfold slot_text at 1. cbn [app]. rewrite occurs_cons.
      change ("$"%char :: show_nat n ++ render ps)
        with (slot_text n ++ render ps).
      rewrite (not_at_slot P HP n (render ps)). cbn [orb].
      rewrite (occurs_copy P HP)
        by (apply digits_no_dollar, show_nat_digits).
      exact IH.
Qed.

(** The placeholders assigned to a value, as pieces. *)
Lemma render_group (a n : nat) : render (group a n) = group_text a n.
Proof.
  unfold group, group_text.
  destruct (seq (S a) n) as [|i rest]; [reflexivity|].
  cbn [map]. rewrite join_cons.
  cbn [render flat_map render_piece]. f_equal.
  induction rest as [|j rest IH]; [reflexivity|].
  cbn [flat_map map app render_piece]. rewrite IH. reflexivity.
Qed.

Lemma render_becomes (a : nat) (v : value) :
  render (becomes a v) = replacement a v.
Proof.
  destruct v; try (cbn; rewrite app_nil_r; reflexivity).
  apply render_group.
Qed.

Lemma slots_group (a n : nat) : slots (group a n) = seq (S a) n.
Proof.
  unfold group.
  destruct (seq (S a) n) as [|i rest]; [reflexivity|].
  cbn [slots flat_map app]. f_equal.
  induction rest as [|j rest IH]; [reflexivity|].
  cbn [flat_map app]. rewrite IH. reflexivity.
Qed.

Lemma names_group (a n : nat) : names (group a n) = [].
Proof.
  unfold group.
  destruct (seq (S a) n) as [|i rest]; [reflexivity|].
  cbn [names flat_map app].
  induction rest as [|j rest IH]; [reflexivity|].
  cbn [flat_map app]. exact IH.
Qed.

Lemma slots_becomes (a : nat) (v : value) :
  slots (becomes a v) = seq (S a) (length (contributes v)).
Proof. destruct v; try reflexivity. apply slots_group. Qed.

Lemma names_becomes (a : nat) (v : value) : names (becomes a v) = [].
Proof. destruct v; try reflexivity. apply names_group. Qed.

(** Placeholders put in front of well-spaced pieces that do not continue
    an identifier are well spaced. *)
Lemma spaced_group (a n : nat) (x : list piece) :
  spaced x = true -> ends_token x = true ->
  spaced (group a n ++ x) = true /\ ends_token (group a n ++ x) = true.
Proof.
  intros Hs He. unfold group.
  destruct (seq (S a) n) as [|i rest]; [auto|].
  split; [|reflexivity].
  cbn [app spaced]. apply andb_true_iff.
  induction rest as [|j rest IH]; cbn [flat_map app]; [auto|].
  destruct IH as [IH1 IH2].
  split; [reflexivity|]. cbn [spaced ends_token].
  rewrite IH1, IH2. reflexivity.
Qed.

Lemma spaced_becomes (a : nat) (v : value) (x : list piece) :
  spaced x = true -> ends_token x = true ->
  spaced (becomes a v ++ x) = true /\ ends_token (becomes a v ++ x) = true.
Proof.
  intros Hs He.
  destruct v; try (cbn [becomes app spaced ends_token];
                   rewrite Hs, He; auto).
  apply spaced_group; assumption.
Qed.

Lemma spaced_subst (P : str) (a : nat) (v : value) (ps : list piece) :
  spaced ps = true ->
  spaced (subst P (becomes a v) ps) = true /\
  (ends_token ps = true -> ends_token (subst P (becomes a v) ps) = true).
Proof.
  induction ps as [|p ps IH]; intros Hs; [auto|].
  specialize (IH (spaced_tail _ _ Hs)). destruct IH as [IH1 IH2].
  destruct p as [c|k|n]; cbn [subst flat_map]; fold (subst P (becomes a v) ps);
    cbn [spaced] in Hs; apply andb_true_iff in Hs; destruct Hs as [H1 H2].
  - cbn [app spaced ends_token]. rewrite H1, IH1. auto.
  - destruct (str_eqb k P).
    + destruct (spaced_becomes a v _ IH1 (IH2 H1)); auto.
    + cbn [app spaced ends_token]. rewrite IH1, (IH2 H1). auto.
  - cbn [app spaced ends_token]. rewrite IH1, (IH2 H1). auto.
Qed.

Lemma names_cons (p : piece) (ps : list piece) :
  names (p :: ps) = match p with Name k => [k] | _ => [] end ++ names ps.
Proof. reflexivity. Qed.

Lemma slots_cons (p : piece) (ps : list piece) :
  slots (p :: ps) = match p with Slot n => [n] | _ => [] end ++ slots ps.
Proof. reflexivity. Qed.

Lemma subst_cons (P : str) (g : list piece) (p : piece) (ps : list piece) :
  subst P g (p :: ps) =
  match p with
  | Name k => if str_eqb k P then g else [p]
  | _ => [p]
  end ++ subst P g ps.
Proof. reflexivity. Qed.

Lemma names_subst (P : str) (g ps : list piece) (k : str) :
  names g = [] ->
  In k (names (subst P g ps)) <-> In k (names ps) /\ k <> P.
Proof.
  intros Hg. induction ps as [|p ps IH]; [cbn; tauto|].
  rewrite subst_cons, names_app, names_cons, !in_app_iff, IH.
  destruct p as [c|k'|n]; cbn [names flat_map In]; [tauto| |tauto].
  destruct (str_eqb k' P) eqn:E.
  - apply str_eqb_eq in E. subst k'. rewrite Hg. cbn [In].
    split; [tauto|]. intros [[[->|[]]|H] Hne]; [congruence|tauto].
  - apply str_eqb_neq in E. cbn [names flat_map app In].
    split; [intros [[->|[]]|H]; tauto|tauto].
Qed.

Lemma slots_subst (P : str) (g ps : list piece) (i : nat) :
  In i (slots (subst P g ps)) <->
  In i (slots ps) \/ (In P (names ps) /\ In i (slots g)).
Proof.
  induction ps as [|p ps IH]; [cbn; tauto|].
  rewrite subst_cons, slots_app, slots_cons, names_cons, !in_app_iff, IH.
  destruct p as [c|k|n]; cbn [slots flat_map app In]; [tauto| |tauto].
  destruct (str_eqb k P) eqn:E.
  - apply str_eqb_eq in E. subst k. tauto.
  - apply str_eqb_neq in E. cbn [slots flat_map app In].
    split; [tauto|]. intros [H|[[[H|[]]|H] H']]; [tauto|congruence|tauto].
Qed.

Lemma subst_absent (P : str) (g ps : list piece) :
  ~ In P (names ps) -> subst P g ps = ps.
Proof.
  induction ps as [|p ps IH]; [reflexivity|].
  rewrite subst_cons, names_cons, in_app_iff. intros H.
  rewrite IH by tauto.
  destruct p as [c|k|n]; try reflexivity.
  destruct (str_eqb k P) eqn:E; [|reflexivity].
  apply str_eqb_eq in E. subst k. cbn in H. tauto.
Qed.

(* ================================================================== *)
(** ** The loop, read on pieces *)

Section LoopOnPieces.

Context {host : RegExpHost}.
Variable o : object.

Lemma assign_spaced (P : str) (ps : list piece) (out : list value) :
  spaced ps = true -> spaced (fst (assign o (ps, out) P)) = true.
Proof.
  intros Hs. unfold assign.
  destruct (has_key (names ps) P); [|exact Hs].
  apply spaced_subst. exact Hs.
Qed.

Lemma assign_names (P : str) (ps : list piece) (out : list value) (k : str) :
  In k (names (fst (assign o (ps, out) P))) <-> In k (names ps) /\ k <> P.
Proof.
  unfold assign.
  destruct (has_key (names ps) P) eqn:E; cbn [fst].
  - apply names_subst, names_becomes.
  - split; [|tauto]. intros H. split; [exact H|].
    intros ->. apply has_key_In in H. congruence.
Qed.

Lemma step_on_pieces (P : str) (ps : list piece) (out : list value) :
  is_placeholder_name P = true -> spaced ps = true -> bounded P ps ->
  step o P (render ps, out) =
  Ok (render (fst (assign o (ps, out) P)), snd (assign o (ps, out) P)).
Proof.
  intros HP Hs Hb.
  rewrite step_plain by (try apply name_dollar; try apply name_plain; exact HP).
  rewrite occurs_on_pieces by assumption.
  unfold assign.
  destruct (has_key (names ps) P); [|reflexivity].
  rewrite <- render_becomes, replace_on_pieces by assumption.
  reflexivity.
Qed.

Lemma loop_on_pieces (keys later : list str) :
  StronglySorted longer_first (keys ++ later) ->
  (forall k, In k (keys ++ later) -> is_placeholder_name k = true) ->
  forall (ps : list piece) (out : list value),
  spaced ps = true -> incl (names ps) (keys ++ later) ->
  loop o keys (render ps, out) =
    Ok (render (fst (assign_all o keys (ps, out))),
        snd (assign_all o keys (ps, out))) /\
  spaced (fst (assign_all o keys (ps, out))) = true /\
  incl (names (fst (assign_all o keys (ps, out)))) later.
Proof.
  induction keys as [|P keys IH]; intros St Hn ps out Hs Hi.
  - cbn. auto.
  - cbn [app] in St, Hn, Hi. inversion St as [|? ? St' Hall]; subst.
    assert (HP : is_placeholder_name P = true) by (apply Hn; cbn; auto).
    assert (Hb : bounded P ps).
    { intros k Hk. specialize (Hi k Hk). split; [apply Hn; exact Hi|].
      destruct Hi as [<-|Hi]; [lia|].
      rewrite Forall_forall in Hall. exact (Hall k Hi). }
    cbn [loop assign_all fold_left].
    rewrite step_on_pieces by assumption.
    destruct (assign o (ps, out) P) as [ps1 out1] eqn:E.
    cbn [fst snd].
    assert (Hs1 : spaced ps1 = true).
    { pose proof (assign_spaced P ps out Hs) as H. rewrite E in H. exact H. }
    assert (Hi1 : incl (names ps1) (keys ++ later)).
    { intros k Hk. pose proof (assign_names P ps out k) as H.
      rewrite E in H. cbn [fst] in H. apply H in Hk. destruct Hk as [Hk Hne].
      destruct (Hi k Hk); [congruence|assumption]. }
    apply (IH St' (fun k H => Hn k (or_intror H)) ps1 out1 Hs1 Hi1).
Qed.

End LoopOnPieces.

(* ================================================================== *)
(** ** The positional placeholders of the result *)

Lemma ident_char_digit (c : ascii) : is_digit c = true -> is_ident_char c = true.
Proof. intros H. unfold is_ident_char. rewrite H. apply orb_true_r. Qed.

(** Once no named placeholder is left, the placeholders read in the text
    are the positional pieces. *)
Lemma placeholders_on_pieces (ps : list piece) :
  spaced ps = true -> names ps = [] ->
  placeholders (render ps) = slots ps.
Proof.
  unfold placeholders.
  induction ps as [|p ps IH]; intros Hs Hn; [reflexivity|].
  specialize (IH (spaced_tail _ _ Hs)).
  rewrite names_cons in Hn.
  destruct p as [c|k|n]; [| discriminate |];
    cbn [app] in Hn; specialize (IH Hn);
    cbn [spaced] in Hs; apply andb_true_iff in Hs; destruct Hs as [H1 H2];
    cbn [render flat_map render_piece]; fold (render ps); rewrite slots_cons.
  - apply negb_true_iff in H1. cbn [app placeholders_from].
    rewrite H1. destruct (is_digit c); exact IH.
  - unfold slot_text. cbn [app placeholders_from].
    change (is_digit "$") with false. cbv iota. cbn [flush app].
    change (Ascii.eqb "$" "$") with true. cbv iota.
    rewrite placeholders_numeral, placeholders_stop; [rewrite IH; reflexivity|].
    destruct ps as [|[c|k|m] ps]; try reflexivity.
    + cbn [ends_token] in H1. cbn.
      destruct (is_digit c) eqn:Ed; [|reflexivity].
      rewrite (ident_char_digit c Ed) in H1. discriminate.
    + discriminate.
Qed.

Section Indices.

Variable o : object.

Lemma assign_covers (st : list piece * list value) (P : str) :
  covers st -> covers (assign o st P).
Proof.
  destruct st as [ps out]. unfold covers, assign. cbn [fst snd]. intros H i.
  destruct (has_key (names ps) P) eqn:E; cbn [fst snd]; [|apply H].
  apply has_key_In in E.
  rewrite slots_subst, slots_becomes, in_seq, H, length_app. 
  split; [intros [?|[_ ?]]; lia|].
  intros Hi. destruct (Nat.le_gt_cases i (length out)); [left; lia|].
  right. split; [exact E|lia].
Qed.

Lemma assign_all_covers (keys : list str) (st : list piece * list value) :
  covers st -> covers (assign_all o keys st).
Proof.
  revert st. induction keys as [|P keys IH]; intros st H; [exact H|].
  cbn [assign_all fold_left]. apply IH, assign_covers, H.
Qed.

(** The named placeholders left after a substitution. *)
Lemma names_subst_filter (P : str) (g ps : list piece) :
  names g = [] ->
  names (subst P g ps) = filter (fun k => negb (str_eqb k P)) (names ps).
Proof.
  intros Hg. induction ps as [|p ps IH]; [reflexivity|].
  rewrite subst_cons, names_app, names_cons, filter_app, IH.
  f_equal. destruct p as [c|k|n]; try reflexivity.
  cbn [filter]. destruct (str_eqb k P); [exact Hg|reflexivity].
Qed.

Lemma slots_subst_length (P : str) (g ps : list piece) :
  length (slots (subst P g ps)) =
  length (slots ps) +
  count_occ (list_eq_dec ascii_dec) (names ps) P * length (slots g).
Proof.
  induction ps as [|p ps IH]; [reflexivity|].
  rewrite subst_cons, slots_app, slots_cons, names_cons, !length_app, IH.
  rewrite count_occ_app. unfold str in *.
  destruct p as [c|k|n].
  - cbn [slots flat_map app length count_occ]. nia.
  - cbn [count_occ].
    destruct (list_eq_dec ascii_dec k P) as [->|Hne].
    + rewrite str_eqb_refl. cbn [length]. nia.
    + apply str_eqb_neq in Hne. rewrite Hne.
      cbn [slots flat_map app length]. nia.
  - cbn [slots flat_map app length count_occ]. nia.
Qed.

(** With every key used at most once, each listed parameter has one
    placeholder. *)
Lemma assign_counts (st : list piece * list value) (P : str) :
  NoDup (names (fst st)) ->
  length (slots (fst st)) = length (snd st) ->
  NoDup (names (fst (assign o st P))) /\
  length (slots (fst (assign o st P))) = length (snd (assign o st P)).
Proof.
  destruct st as [ps out]. unfold assign. cbn [fst snd]. intros Hnd Hlen.
  destruct (has_key (names ps) P) eqn:E; cbn [fst snd]; [|auto].
  apply has_key_In in E. split.
  - rewrite names_subst_filter by apply names_becomes.
    apply NoDup_filter, Hnd.
  - rewrite slots_subst_length, slots_becomes, length_seq, length_app, Hlen.
    rewrite (proj1 (NoDup_count_occ' (list_eq_dec ascii_dec) (names ps)) Hnd P E).
    lia.
Qed.

Lemma assign_all_counts (keys : list str) (st : list piece * list value) :
  NoDup (names (fst st)) ->
  length (slots (fst st)) = length (snd st) ->
  length (slots (fst (assign_all o keys st))) =
  length (snd (assign_all o keys st)).
Proof.
  revert st. induction keys as [|P keys IH]; intros st Hnd Hlen; [exact Hlen|].
  cbn [assign_all fold_left].
  destruct (assign_counts st P Hnd Hlen) as [H1 H2].
  apply IH; assumption.
Qed.

End Indices.

Lemma named_query_parts (o : object) (ps : list piece) :
  named_query o ps = true ->
  (forall k, In k (Object_keys o) -> is_placeholder_name k = true) /\
  spaced ps = true /\
  incl (names ps) (Object_keys o) /\
  slots ps = [].
Proof.
  unfold named_query. intros H.
  repeat (apply andb_true_iff in H; destruct H as [H ?]).
  rewrite forallb_forall in *.
  split; [exact H|]. split; [assumption|]. split.
  - intros k Hk. apply has_key_In. auto.
  - destruct (slots ps); [reflexivity|discriminate].
Qed.

(** On a query in named style the transformer does what [assign_all]
    does on the pieces, the keys taken longest first; no named
    placeholder is left. *)
Lemma transformQuery_on_pieces (host : RegExpHost) (o : object)
    (ps : list piece) :
  named_query o ps = true ->
  let final := assign_all o (sort_keys (Object_keys o)) (ps, []) in
  transformQuery (render ps) (NamedParams o) =
    Ok (render (fst final), ArrayParams (snd final)) /\
  spaced (fst final) = true /\
  names (fst final) = [].
Proof.
  intros H final.
  destruct (named_query_parts o ps H) as (Hk & Hs & Hi & _).
  destruct (loop_on_pieces o (sort_keys (Object_keys o)) []) with
    (ps := ps) (out := @nil value) as (Hl & Hs' & Hn').
  - rewrite app_nil_r. apply sort_keys_sorted.
  - intros k. rewrite app_nil_r, sort_keys_In. apply Hk.
  - exact Hs.
  - rewrite app_nil_r. intros k Hin. apply sort_keys_In, Hi, Hin.
  - fold final in Hl, Hs', Hn'.
    unfold transformQuery. rewrite Hl.
    split; [reflexivity|]. split; [exact Hs'|].
    destruct (names (fst final)) as [|k l]; [reflexivity|].
    destruct (Hn' k); cbn; auto.
Qed.

(* ================================================================== *)
(** ** A key in any query

    The query is any text here; the key is a [$]-prefixed identifier. *)

Lemma name_nonempty (key : str) : startsWith key "$" = true -> key <> [].
Proof. destruct key; [discriminate|discriminate]. Qed.

Lemma occurs_suffix (k a b : str) :
  occurs k (a ++ b) = false -> occurs k b = false.
Proof.
  induction a as [|c a IH]; [auto|].
  cbn [app]. rewrite occurs_cons. intros H.
  apply orb_false_iff in H. apply IH, H.
Qed.

Lemma Scan_absent (tok repl s : str) : occurs tok s = false -> Scan tok repl s s.
Proof.
  induction s as [|c s IH]; [constructor|].
  rewrite occurs_cons. intros H. apply orb_false_iff in H.
  constructor; [apply H|apply IH, H].
Qed.

(** What the scan left in place was there before: a text without [$]
    that starts the output starts the input. *)
Lemma Scan_prefix_back (tok repl s out : str) :
  Scan tok repl s out ->
  (exists r, repl = "$"%char :: r) ->
  forall w, forallb (fun c => negb (Ascii.eqb c "$")) w = true ->
            startsWith out w = true -> startsWith s w = true.
Proof.
  intros Hs [r ->]. induction Hs as [|rest out Hs IH|c s out Hm Hs IH];
    intros w Hw; destruct w as [|c' w]; try reflexivity.
  - discriminate.
  - cbn [app startsWith]. cbn [forallb] in Hw.
    apply andb_true_iff in Hw. destruct Hw as [Hc _].
    destruct (Ascii.eqb c' "$"); [discriminate Hc|discriminate].
  - cbn [startsWith]. cbn [forallb] in Hw.
    apply andb_true_iff in Hw. destruct Hw as [_ Hw].
    intros H. apply andb_true_iff in H. destruct H as [-> H].
    cbn [andb]. apply IH; assumption.
Qed.

Section KeyInAnyQuery.

Variable K : str.
Hypothesis K_name : is_placeholder_name K = true.

Lemma name_after_dollar :
  exists name, K = "$"%char :: name /\
               forallb (fun c => negb (Ascii.eqb c "$")) name = true.
Proof.
  pose proof (name_tail_ident K K_name) as Ht.
  destruct (name_shape K K_name) as (c & rest & -> & _ & _).
  eexists. split; [reflexivity|]. apply ident_no_dollar, Ht.
Qed.

Lemma not_after_digits (ds x : str) :
  forallb is_digit ds = true -> occurs K (ds ++ x) = occurs K x.
Proof.
  induction ds as [|d ds IH]; [reflexivity|].
  cbn [forallb app]. intros H. apply andb_true_iff in H.
  destruct H as [Hd Hds]. rewrite occurs_cons.
  rewrite (not_at_other_char K K_name d _ (digit_not_dollar d Hd)).
  apply IH, Hds.
Qed.

Lemma slot_inert (n : nat) (x : str) :
  occurs K (slot_text n ++ x) = occurs K x.
Proof.
  pose proof (not_at_slot K K_name n x) as H.
  unfold slot_text in *. cbn [app] in *. rewrite occurs_cons, H.
  apply not_after_digits, show_nat_digits.
Qed.

Lemma slots_inert (l : list nat) (x : str) :
  occurs K (flat_map (fun y => ", " ++ y) (map slot_text l) ++ x) =
  occurs K x.
Proof.
  induction l as [|n l IH]; [reflexivity|].
  cbn [map flat_map]. rewrite <- !app_assoc.
  change ((", " : str) ++ slot_text n ++
          flat_map (fun y => ", " ++ y) (map slot_text l) ++ x)
    with (","%char :: " "%char :: slot_text n ++
          flat_map (fun y => ", " ++ y) (map slot_text l) ++ x).
  rewrite occurs_cons,
    (not_at_other_char K K_name ","%char _ eq_refl).
  rewrite occurs_cons,
    (not_at_other_char K K_name " "%char _ eq_refl).
  cbn [orb]. rewrite slot_inert. exact IH.
Qed.

(** The text put in place of a key holds no occurrence of [K] and
    starts none. *)
Lemma replacement_inert (a : nat) (v : value) (x : str) :
  occurs K (replacement a v ++ x) = occurs K x.
Proof.
  assert (Hs : forall n, occurs K (slot_text n ++ x) = occurs K x)
    by (intros n; apply slot_inert).
  destruct v as [| |b|n|s|items]; cbn [replacement]; try apply Hs.
  unfold group_text. destruct (seq (S a) (length items)) as [|n l];
    [reflexivity|].
  cbn [map]. rewrite join_cons, <- app_assoc, slot_inert.
  apply slots_inert.
Qed.

Lemma replacement_dollar (a : nat) (v : value) :
  is_empty_array v = false -> exists r, replacement a v = "$"%char :: r.
Proof.
  destruct v as [| |b|n|s|items]; cbn [replacement];
    try (intros _; unfold slot_text; eexists; reflexivity).
  destruct items as [|x items]; [intros H; discriminate H|]. intros _.
  unfold group_text. cbn [length seq map]. rewrite join_cons.
  unfold slot_text. cbn [app]. eauto.
Qed.

Section OneScan.

Variables tok repl : str.
Hypothesis repl_dollar : exists r, repl = "$"%char :: r.
Hypothesis repl_inert : forall x, occurs K (repl ++ x) = occurs K x.

Lemma not_across (c : ascii) (s out : str) :
  Scan tok repl s out ->
  startsWith (c :: s) K = false -> startsWith (c :: out) K = false.
Proof.
  intros Hs. destruct name_after_dollar as (name & -> & Hn).
  cbn [startsWith]. destruct (Ascii.eqb "$" c); [cbn [andb]|reflexivity].
  intros H. destruct (startsWith out name) eqn:E; [|reflexivity].
  rewrite (Scan_prefix_back _ _ _ _ Hs repl_dollar name Hn E) in H.
  discriminate H.
Qed.

(** Replacing a key does not bring [K] into the query. *)
Lemma Scan_keeps_absent (s out : str) :
  Scan tok repl s out -> occurs K s = false -> occurs K out = false.
Proof.
  induction 1 as [|rest out Hs IH|c s out Hm Hs IH]; intros H.
  - exact H.
  - rewrite repl_inert. apply IH. apply (occurs_suffix _ _ _ H).
  - rewrite occurs_cons in *. apply orb_false_iff in H.
    destruct H as [H1 H2].
    rewrite (not_across c s out Hs H1), IH by assumption. reflexivity.
Qed.

End OneScan.

(** Replacing [K] itself leaves no occurrence of it. *)
Lemma Scan_removes (repl s out : str) :
  (exists r, repl = "$"%char :: r) ->
  (forall x, occurs K (repl ++ x) = occurs K x) ->
  Scan K repl s out -> occurs K out = false.
Proof.
  intros Hd Hi. induction 1 as [|rest out Hs IH|c s out Hm Hs IH].
  - destruct name_after_dollar as (name & -> & _). reflexivity.
  - rewrite Hi. exact IH.
  - rewrite occurs_cons, IH.
    rewrite (not_across K repl Hd Hi c s out Hs Hm). reflexivity.
Qed.

End KeyInAnyQuery.

Section LoopInAnyQuery.

Context {host : RegExpHost}.

Lemma loop_app (o : object) (a b : list str) (st : str * list value) :
  loop o (a ++ b) st =
  match loop o a st with
  | Ok st' => loop o b st'
  | Throw e => Throw e
  end.
Proof.
  revert st. induction a as [|k a IH]; intros st; [reflexivity|].
  cbn [app loop]. destruct (step o k st); [apply IH|reflexivity].
Qed.

Variable o : object.
Hypothesis o_names : forallb is_placeholder_name (Object_keys o) = true.
Hypothesis o_values : no_empty_array o = true.

Lemma key_facts (k : str) :
  In k (Object_keys o) ->
  is_placeholder_name k = true /\ is_empty_array (get o k) = false.
Proof.
  intros Hin. unfold no_empty_array in o_values.
  rewrite forallb_forall in o_names, o_values.
  split; [apply o_names, Hin|].
  apply negb_true_iff, o_values, Hin.
Qed.

Lemma step_scans (k q : str) (out : list value) :
  In k (Object_keys o) ->
  exists q' out' repl,
    step o k (q, out) = Ok (q', out') /\
    Scan k repl q q' /\
    (exists r, repl = "$"%char :: r) /\
    (forall K, is_placeholder_name K = true ->
               forall x, occurs K (repl ++ x) = occurs K x).
Proof.
  intros Hin. destruct (key_facts k Hin) as [Hn Hv].
  rewrite step_plain by (apply name_dollar, Hn || apply name_plain, Hn).
  exists (frag_replace (map Lit k) q (replacement (length out) (get o k))).
  destruct (occurs k q) eqn:Ho.
  - eexists _, _. split; [reflexivity|].
    split; [apply frag_replace_scans, name_nonempty, name_dollar, Hn|].
    split; [apply replacement_dollar, Hv|].
    intros K HK x. apply replacement_inert, HK.
  - exists out, (replacement (length out) (get o k)).
    pose proof (frag_replace_scans k (replacement (length out) (get o k)) q
                  (name_nonempty k (name_dollar k Hn))) as Hs.
    rewrite (Scan_functional _ _ _ _ _
               (name_nonempty k (name_dollar k Hn)) Hs (Scan_absent _ _ _ Ho)).
    split; [reflexivity|].
    split; [apply Scan_absent, Ho|].
    split; [apply replacement_dollar, Hv|].
    intros K HK x. apply replacement_inert, HK.
Qed.

Lemma loop_keeps_absent (K : str) (keys : list str) :
  is_placeholder_name K = true ->
  (forall k, In k keys -> In k (Object_keys o)) ->
  forall st st', loop o keys st = Ok st' ->
                 occurs K (fst st) = false -> occurs K (fst st') = false.
Proof.
  intros HK. induction keys as [|k keys IH]; intros Hin st st'.
  - cbn [loop]. intros H; injection H as <-. auto.
  - cbn [loop]. destruct st as [q out].
    destruct (step_scans k q out (Hin k (or_introl eq_refl)))
      as (q1 & out1 & repl & -> & Hs & Hd & Hi).
    intros Hl Ho. apply (IH (fun k' H => Hin k' (or_intror H)) _ _ Hl).
    cbn [fst] in *.
    apply (Scan_keeps_absent K HK k repl Hd (Hi K HK) q q1 Hs Ho).
Qed.

Lemma loop_removes (K : str) (pre post : list str) :
  (forall k, In k (pre ++ K :: post) -> In k (Object_keys o)) ->
  forall st st', loop o (pre ++ K :: post) st = Ok st' ->
                 occurs K (fst st') = false.
Proof.
  intros Hin st st'. rewrite loop_app.
  destruct (loop o pre st) as [[q out]|e]; [|discriminate].
  assert (HK : In K (Object_keys o))
    by (apply Hin, in_or_app; right; left; reflexivity).
  cbn [loop].
  destruct (step_scans K q out HK) as (q1 & out1 & repl & -> & Hs & Hd & Hi).
  destruct (key_facts K HK) as [Hn _].
  intros Hl.
  assert (Hpost : forall k, In k post -> In k (Object_keys o))
    by (intros k H; apply Hin, in_or_app; right; right; exact H).
  apply (loop_keeps_absent K post Hn Hpost _ _ Hl).
  cbn [fst]. apply (Scan_removes K Hn repl q q1 Hd (Hi K Hn) Hs).
Qed.

Lemma longer_key_gone_anywhere (q : str) : longer_key_gone o q.
Proof.
  intros done k_s todo k_l st E Hin Hp Hl.
  destruct (longer_key_first _ _ _ _ _ E Hin Hp) as [Hd _].
  destruct (in_split _ _ Hd) as (pre & post & ->).
  apply (loop_removes k_l pre post) with (st := (q, [])); [|exact Hl].
  intros k Hk. apply (sort_keys_In (Object_keys o)). rewrite E.
  apply in_or_app. left. exact Hk.
Qed.

End LoopInAnyQuery.

(* ================================================================== *)
(** ** A plain key when its turn comes *)

Section PlainKeys.

Context {host : RegExpHost}.

Variable o : object.
Hypothesis o_plain : plain_keys o = true.

Lemma plain_key_facts (k : str) :
  In k (Object_keys o) -> startsWith k "$" = true /\ plain_key k = true.
Proof.
  intros Hin. unfold plain_keys in o_plain.
  rewrite forallb_forall in o_plain.
  apply andb_true_iff, o_plain, Hin.
Qed.

Lemma step_plain_scans (k q : str) (out : list value) :
  In k (Object_keys o) ->
  exists q2,
    Scan k (replacement (length out) (get o k)) q q2 /\
    step o k (q, out) =
      Ok (q2, if occurs k q then out ++ contributes (get o k) else out).
Proof.
  intros Hin. destruct (plain_key_facts k Hin) as [Hd Hp].
  rewrite step_plain by assumption.
  pose proof (frag_replace_scans k (replacement (length out) (get o k)) q
                (name_nonempty k Hd)) as Hs.
  destruct (occurs k q) eqn:Ho.
  - eexists. split; [exact Hs|reflexivity].
  - exists q. split; [apply Scan_absent, Ho|reflexivity].
Qed.

Lemma loop_plain_returns (keys : list str) :
  (forall k, In k keys -> In k (Object_keys o)) ->
  forall st, exists st', loop o keys st = Ok st'.
Proof.
  induction keys as [|k keys IH]; intros Hin [q out]; [cbn; eauto|].
  cbn [loop].
  destruct (step_plain_scans k q out (Hin k (or_introl eq_refl)))
    as (q2 & _ & ->).
  apply IH. intros k' H. apply Hin. right. exact H.
Qed.

(** The run of the transformer cut at the turn of one key. *)
Lemma transformQuery_at_turn (q : str) (done : list str) (key : str)
    (todo : list str) :
  sort_keys (Object_keys o) = done ++ key :: todo ->
  exists q1 out1 q2 q' out',
    loop o done (q, []) = Ok (q1, out1) /\
    Scan key (replacement (length out1) (get o key)) q1 q2 /\
    step o key (q1, out1) =
      Ok (q2, if occurs key q1 then out1 ++ contributes (get o key)
              else out1) /\
    loop o todo
      (q2, if occurs key q1 then out1 ++ contributes (get o key) else out1)
      = Ok (q', out') /\
    transformQuery q (NamedParams o) = Ok (q', ArrayParams out').
Proof.
  intros E.
  assert (Hin : forall k, In k (done ++ key :: todo) -> In k (Object_keys o))
    by (intros k H; apply (sort_keys_In (Object_keys o)); rewrite E; exact H).
  destruct (loop_plain_returns done
              (fun k H => Hin k (in_or_app _ _ _ (or_introl H))) (q, []))
    as [[q1 out1] H1].
  assert (Hk : In key (Object_keys o))
    by (apply Hin, in_or_app; right; left; reflexivity).
  destruct (step_plain_scans key q1 out1 Hk) as (q2 & Hs & H2).
  assert (Htodo : forall k, In k todo -> In k (Object_keys o))
    by (intros k H; apply Hin, in_or_app; right; right; exact H).
  destruct (loop_plain_returns todo Htodo
              (q2, if occurs key q1 then out1 ++ contributes (get o key)
                   else out1)) as [[q' out'] H3].
  exists q1, out1, q2, q', out'.
  repeat (split; [assumption|]).
  unfold transformQuery. rewrite E, loop_app, H1. cbn [loop].
  rewrite H2, H3. reflexivity.
Qed.

End PlainKeys.

(* ================================================================== *)
(** ** Connections: who releases what *)

Section ExecutorFacts.

Context {host : RegExpHost} {pg : PgHost}.

(** The body of [queryMultiple] once a client is at hand. *)
Lemma queryMultiple_supplied (q : str) (p : params) (c : client) (t : trace) :
  queryMultiple q p (Some c) t =
  match transformQuery q p with
  | Throw e => (Throw e, (t ++ [Logged ERROR]) ++ [Logged ERROR])
  | Ok tq =>
      let t1 := t ++ [Logged DEBUG] in
      match client_query t1 c (fst tq) (snd tq) with
      | Resolved rows =>
          (Ok rows, t1 ++ [ClientQuery c (fst tq) (snd tq) (Ok rows)])
      | Rejected code =>
          (Throw (HostError code),
           ((t1 ++ [ClientQuery c (fst tq) (snd tq) (Throw (HostError code))])
              ++ [Logged ERROR]) ++ [Logged ERROR])
      end
  end.
Proof.
  unfold queryMultiple, bind, ret, try_finally, try_catch, lift, logger_log,
    logger_error, emit, throw, query_rows.
  destruct (transformQuery q p) as [tq|e]; cbn; [|reflexivity].
  destruct (client_query _ c (fst tq) (snd tq)); reflexivity.
Qed.

(** Without a client, acquisition comes first; a failed acquisition is
    logged and rethrown, and nothing else happens. *)
Lemma queryMultiple_acquisition_failed (q : str) (p : params) (t : trace)
    (code : nat) :
  pool_connect t = Rejected code ->
  queryMultiple q p None t =
  (Throw (HostError code),
   (t ++ [PoolConnect (Throw (HostError code))]) ++ [Logged ERROR]).
Proof.
  intros H.
  unfold queryMultiple, bind, ret, try_catch, connect, logger_error, emit, throw.
  rewrite H. reflexivity.
Qed.

(** Without a client and with a successful acquisition, the call is the
    supplied-client call on the acquired client, followed by its release. *)
Lemma queryMultiple_owned (q : str) (p : params) (t : trace) (c : client) :
  pool_connect t = Resolved c ->
  queryMultiple q p None t =
  let '(r, t') := queryMultiple q p (Some c) (t ++ [PoolConnect (Ok c)]) in
  (r, t' ++ [ClientRelease c]).
Proof.
  intros H.
  unfold queryMultiple, bind, ret, try_finally, try_catch, connect, release,
    emit, lift, logger_log, logger_error, throw, query_rows.
  rewrite H. cbn.
  destruct (transformQuery q p) as [tq|e]; cbn; [|reflexivity].
  destruct (client_query _ c (fst tq) (snd tq)); reflexivity.
Qed.

Lemma releases_of_app (c : client) (a b : trace) :
  releases_of c (a ++ b) = releases_of c a + releases_of c b.
Proof.
  induction a as [|ev a IH]; cbn; [reflexivity|].
  destruct ev; rewrite IH; lia.
Qed.

(** With a supplied client the call adds no acquisition and no release. *)
Lemma queryMultiple_supplied_events (q : str) (p : params) (c : client)
    (t : trace) :
  exists evs,
    snd (queryMultiple q p (Some c) t) = t ++ evs /\
    (forall c', releases_of c' evs = 0) /\
    existsb is_connect evs = false.
Proof.
  rewrite queryMultiple_supplied.
  destruct (transformQuery q p) as [tq|e]; cbn.
  - destruct (client_query _ c (fst tq) (snd tq)); cbn [snd];
      repeat rewrite <- app_assoc;
      eexists; (split; [reflexivity|]); split; reflexivity.
  - repeat rewrite <- app_assoc.
    eexists; (split; [reflexivity|]); split; reflexivity.
Qed.

Lemma queryMultiple_discipline (q : str) (p : params)
    (supplied : option client) (t : trace) :
  release_discipline supplied t (snd (queryMultiple q p supplied t)).
Proof.
  unfold release_discipline.
  destruct supplied as [c|].
  - destruct (queryMultiple_supplied_events q p c t) as (evs & E & R & A).
    exists evs. auto.
  - destruct (pool_connect t) as [c|code] eqn:H.
    + rewrite (queryMultiple_owned q p t c H).
      destruct (queryMultiple_supplied_events q p c (t ++ [PoolConnect (Ok c)]))
        as (mid & E & R & A).
      destruct (queryMultiple q p (Some c) (t ++ [PoolConnect (Ok c)]))
        as [r t'] eqn:Q.
      cbn in E. subst t'. cbn.
      exists (PoolConnect (Ok c) :: mid ++ [ClientRelease c]).
      split.
      * repeat rewrite <- app_assoc. reflexivity.
      * exists mid. auto.
    + rewrite (queryMultiple_acquisition_failed q p t code H). cbn.
      eexists. split; [rewrite <- app_assoc; reflexivity|].
      reflexivity.
Qed.

Lemma queryMultiple_v1_0_discipline (q : str) (p : params) (t : trace) :
  release_discipline None t (snd (queryMultiple_v1_0 q p t)).
Proof.
  unfold release_discipline, queryMultiple_v1_0, bind, ret, try_finally,
    try_catch, connect, release, emit, lift, logger_log, logger_error, throw,
    query_rows.
  destruct (pool_connect t) as [c|code]; cbn.
  - destruct (transformQuery q p) as [tq|e]; cbn.
    + destruct (client_query _ c (fst tq) (snd tq)); cbn;
        repeat rewrite <- app_assoc; cbn;
        (eexists; split; [reflexivity|]);
        [ exists [Logged DEBUG; ClientQuery c (fst tq) (snd tq) (Ok a)]
        | exists [Logged DEBUG;
                  ClientQuery c (fst tq) (snd tq) (Throw (HostError code));
                  Logged ERROR; Logged ERROR] ];
        repeat split.
    + repeat rewrite <- app_assoc; cbn.
      eexists; split; [reflexivity|].
      exists [Logged ERROR; Logged ERROR]. repeat split.
  - repeat rewrite <- app_assoc; cbn.
    eexists; split; reflexivity.
Qed.

(** The three other query functions leave the trace [queryMultiple]
    leaves. *)
Lemma query_trace (q : str) (p : params) (supplied : option client)
    (t : trace) :
  snd (query q p supplied t) = snd (queryMultiple q p supplied t).
Proof.
  unfold query, bind, ret.
  destruct (queryMultiple q p supplied t) as [[rows|e] t']; reflexivity.
Qed.

Lemma querySingle_trace (q : str) (p : params) (supplied : option client)
    (t : trace) :
  snd (querySingle q p supplied t) = snd (queryMultiple q p supplied t).
Proof.
  unfold querySingle, bind, ret.
  destruct (queryMultiple q p supplied t) as [[rows|e] t']; reflexivity.
Qed.

Lemma queryScalar_trace (q : str) (p : params) (supplied : option client)
    (t : trace) :
  snd (queryScalar q p supplied t) = snd (queryMultiple q p supplied t).
Proof.
  unfold queryScalar, bind.
  rewrite <- querySingle_trace.
  destruct (querySingle q p supplied t) as [[[r|]|e] t']; reflexivity.
Qed.

End ExecutorFacts.

(** C4.  Every call of [queryMultiple], [query], [querySingle] and
    [queryScalar] follows the release discipline: without a client it
    acquires one first and, when that succeeds, releases that client once,
    as its last action, whatever the outcome; a failed acquisition
    releases nothing; with a caller's client it acquires nothing and
    releases nothing.  The v1.0 [queryMultiple], which always acquires,
    does the same.  Spelled out for [queryMultiple] without a client: the
    exits are the failed acquisition, the transformer's error, the
    rejected statement and the returned rows, and the last three end with
    the release. *)
Theorem query_functions_release_what_they_acquire
    (host : RegExpHost) (pg : PgHost) (q : str) (p : params)
    (supplied : option client) (t : trace) :
  release_discipline supplied t (snd (queryMultiple q p supplied t)) /\
  release_discipline supplied t (snd (query q p supplied t)) /\
  release_discipline supplied t (snd (querySingle q p supplied t)) /\
  release_discipline supplied t (snd (queryScalar q p supplied t)) /\
  release_discipline None t (snd (queryMultiple_v1_0 q p t)) /\
  queryMultiple q p None t =
  match pool_connect t with
  | Rejected code =>
      (Throw (HostError code),
       (t ++ [PoolConnect (Throw (HostError code))]) ++ [Logged ERROR])
  | Resolved c =>
      let t1 := t ++ [PoolConnect (Ok c)] in
      match transformQuery q p with
      | Throw e =>
          (Throw e,
           ((t1 ++ [Logged ERROR]) ++ [Logged ERROR]) ++ [ClientRelease c])
      | Ok tq =>
          let t2 := t1 ++ [Logged DEBUG] in
          match client_query t2 c (fst tq) (snd tq) with
          | Rejected code =>
              (Throw (HostError code),
               (((t2 ++ [ClientQuery c (fst tq) (snd tq)
                           (Throw (HostError code))])
                   ++ [Logged ERROR]) ++ [Logged ERROR])
                 ++ [ClientRelease c])
          | Resolved rows =>
              (Ok rows,
               (t2 ++ [ClientQuery c (fst tq) (snd tq) (Ok rows)])
                 ++ [ClientRelease c])
          end
      end
  end.
Proof.
  rewrite query_trace, queryScalar_trace, querySingle_trace.
  pose proof (queryMultiple_discipline q p supplied t).
  pose proof (queryMultiple_v1_0_discipline q p t).
  repeat (split; [assumption|]).
  destruct (pool_connect t) as [c|code] eqn:Hc.
  - rewrite (queryMultiple_owned q p t c Hc), queryMultiple_supplied.
    cbv zeta.
    destruct (transformQuery q p) as [tq|e]; [|reflexivity].
    destruct (client_query _ c (fst tq) (snd tq)); reflexivity.
  - apply queryMultiple_acquisition_failed, Hc.
Qed.

(* ================================================================== *)
(** ** Transactions *)

Section TransactionFacts.

Context {pg : PgHost}.

(** What [beginTransaction] does, case by case. *)
Lemma beginTransaction_cases (t : trace) :
  beginTransaction t =
  match pool_connect t with
  | Rejected code =>
      (Throw (HostError code), t ++ [PoolConnect (Throw (HostError code))])
  | Resolved c =>
      let t1 := t ++ [PoolConnect (Ok c)] in
      match client_query t1 c "BEGIN" NoParams with
      | Resolved rows =>
          (Ok c, t1 ++ [ClientQuery c "BEGIN" NoParams (Ok rows)])
      | Rejected code =>
          (Throw (HostError code),
           t1 ++ [ClientQuery c "BEGIN" NoParams (Throw (HostError code))])
      end
  end.
Proof.
  unfold beginTransaction, bind, ret, connect, query_rows.
  destruct (pool_connect t) as [c|code]; cbn; [|reflexivity].
  destruct (client_query _ c _ NoParams); reflexivity.
Qed.

(** A statement followed by the release of the client, as
    [commitTransaction] and [rollbackTransaction] are written. *)
Lemma statement_then_release (c : client) (text : str) (t : trace) :
  (query_rows c text NoParams ;;; release c) t =
  match client_query t c text NoParams with
  | Resolved rows =>
      (Ok tt, (t ++ [ClientQuery c text NoParams (Ok rows)])
                ++ [ClientRelease c])
  | Rejected code =>
      (Throw (HostError code),
       t ++ [ClientQuery c text NoParams (Throw (HostError code))])
  end.
Proof.
  unfold bind, query_rows, release, emit.
  destruct (client_query t c text NoParams); reflexivity.
Qed.

End TransactionFacts.

(** C5.  When the pool hands out a client and the [BEGIN] statement is
    rejected, [beginTransaction] throws the statement's error and returns
    no client, and the client it acquired is not released: the trace it
    leaves ends with the failed statement. *)
Theorem beginTransaction_keeps_client_when_BEGIN_fails
    (pg : PgHost) (t : trace) (c : client) (code : nat) :
  pool_connect t = Resolved c ->
  client_query (t ++ [PoolConnect (Ok c)]) c "BEGIN" NoParams = Rejected code ->
  beginTransaction t =
    (Throw (HostError code),
     (t ++ [PoolConnect (Ok c)])
       ++ [ClientQuery c "BEGIN" NoParams (Throw (HostError code))]) /\
  forall c',
    releases_of c'
      ([PoolConnect (Ok c);
        ClientQuery c "BEGIN" NoParams (Throw (HostError code))]) = 0.
Proof.
  intros Hc Hq. rewrite beginTransaction_cases, Hc.
  cbv beta iota zeta. rewrite Hq.
  split; reflexivity.
Qed.

Lemma beginTransaction_keeps_client_when_BEGIN_fails_witness :
  @beginTransaction (sample_pg true (fun _ => true) []) [] =
    (Throw (HostError 2),
     [PoolConnect (Ok 7);
      ClientQuery 7 "BEGIN" NoParams (Throw (HostError 2))]) /\
  forall c',
    releases_of c'
      ([PoolConnect (Ok 7);
        ClientQuery 7 "BEGIN" NoParams (Throw (HostError 2))]) = 0.
Proof.
  apply (@beginTransaction_keeps_client_when_BEGIN_fails
           (sample_pg true (fun _ => true) []) [] 7 2); reflexivity.
Defined.

(** C6, as stated, fails: when [COMMIT] is rejected, [commitTransaction]
    does not release the client at all. *)
Lemma commitTransaction_rejected_not_released :
  ~ released_exactly_once 7 []
      (snd (@commitTransaction (sample_pg true (fun _ => true) []) 7 [])).
Proof.
  intros (evs & E & R). cbn in E. subst evs. cbn in R. discriminate.
Qed.

(** C6, amended.  [commitTransaction] and [rollbackTransaction] issue
    their statement on the client they are given.  When the statement
    succeeds, the client is then released, once, and that is all.  When
    [COMMIT] is rejected, the error is thrown and the client is not
    released (it stays with the caller, who rolls back); a rejected
    [ROLLBACK] throws its error. *)
Theorem commit_and_rollback_release_after_success
    (pg : PgHost) (c : client) (t : trace) :
  match client_query t c "COMMIT" NoParams with
  | Resolved rows =>
      commitTransaction c t =
        (Ok tt, (t ++ [ClientQuery c "COMMIT" NoParams (Ok rows)])
                  ++ [ClientRelease c]) /\
      released_exactly_once c t (snd (commitTransaction c t))
  | Rejected code =>
      commitTransaction c t =
        (Throw (HostError code),
         t ++ [ClientQuery c "COMMIT" NoParams (Throw (HostError code))])
  end /\
  match client_query t c "ROLLBACK" NoParams with
  | Resolved rows =>
      rollbackTransaction c t =
        (Ok tt, (t ++ [ClientQuery c "ROLLBACK" NoParams (Ok rows)])
                  ++ [ClientRelease c]) /\
      released_exactly_once c t (snd (rollbackTransaction c t))
  | Rejected code =>
      fst (rollbackTransaction c t) = Throw (HostError code)
  end.
Proof.
  unfold commitTransaction, rollbackTransaction.
  rewrite !statement_then_release.
  split.
  - destruct (client_query t c "COMMIT" NoParams) as [rows|code];
      [|reflexivity].
    split; [reflexivity|]. cbn.
    exists [ClientQuery c "COMMIT" NoParams (Ok rows); ClientRelease c].
    split; [rewrite <- app_assoc; reflexivity|].
    cbn. rewrite Nat.eqb_refl. reflexivity.
  - destruct (client_query t c "ROLLBACK" NoParams) as [rows|code];
      [|reflexivity].
    split; [reflexivity|]. cbn.
    exists [ClientQuery c "ROLLBACK" NoParams (Ok rows); ClientRelease c].
    split; [rewrite <- app_assoc; reflexivity|].
    cbn. rewrite Nat.eqb_refl. reflexivity.
Qed.

(* ================================================================== *)
(** ** Result shapes *)

Lemma get_head (k : str) (v : value) (o : object) : get ((k, v) :: o) k = v.
Proof.
  cbn. unfold str_eqb. destruct (list_eq_dec ascii_dec k k); congruence.
Qed.

(** A property that is first stays first when a later column is
    assigned that [stays_first] lets through. *)
Lemma js_set_keeps_first (k : str) (v : value) (o : object) (k' : str)
    (v' : value) :
  stays_first k k' = true ->
  exists o', js_set ((k, v) :: o) k' v' = (k, v) :: o'.
Proof.
  unfold stays_first. intros H. apply andb_true_iff in H.
  destruct H as [Hne Hi]. apply negb_true_iff in Hne.
  cbn [js_set]. rewrite Hne.
  destruct (array_index k') as [i'|]; [|eauto].
  destruct (array_index k) as [i|]; [|discriminate Hi].
  apply N.ltb_lt in Hi.
  destruct (N.ltb_spec i' i); [lia|eauto].
Qed.

Lemma fold_keeps_first (k : str) (v : value) (rest : list (str * value)) :
  forallb (fun column => stays_first k (fst column)) rest = true ->
  forall o, exists o',
    fold_left (fun o column => js_set o (fst column) (snd column)) rest
      ((k, v) :: o) = (k, v) :: o'.
Proof.
  induction rest as [|[k' v'] rest IH]; intros H o; [cbn; eauto|].
  cbn [forallb fst] in H. apply andb_true_iff in H. destruct H as [H1 H2].
  cbn [fold_left fst snd].
  destruct (js_set_keeps_first k v o k' v' H1) as [o1 ->].
  apply IH, H2.
Qed.

Lemma first_declared_column (k : str) (v : value)
    (rest : list (str * value)) :
  forallb (fun column => stays_first k (fst column)) rest = true ->
  first_column (row_object ((k, v) :: rest)) = v.
Proof.
  intros H. unfold row_object. cbn [fold_left js_set fst snd].
  destruct (fold_keeps_first k v rest H []) as [o' ->].
  unfold first_column. cbn [Object_keys map fst]. apply get_head.
Qed.




(* ================================================================== *)
(** ** Longest key first *)

Lemma longer_key_gone_named (host : RegExpHost) (o : object)
    (ps : list piece) :
  named_query o ps = true -> longer_key_gone o (render ps).
Proof.
  intros H done k_s todo k_l st E Hin Hp Hl.
  destruct (named_query_parts o ps H) as (Hk & Hs & Hi & _).
  pose proof (sort_keys_sorted (Object_keys o)) as St. rewrite E in St.
  destruct (loop_on_pieces o done (k_s :: todo) St) with
    (ps := ps) (out := @nil value) as (Hl' & Hs' & Hn').
  - intros k Hk'. apply Hk, sort_keys_In. rewrite E. exact Hk'.
  - exact Hs.
  - intros k Hk'. rewrite <- E. apply sort_keys_In, Hi, Hk'.
  - rewrite Hl in Hl'. injection Hl' as ->. cbn [fst].
    set (ps1 := fst (assign_all o done (ps, []))) in *.
    destruct (longer_key_first _ _ _ _ _ E Hin Hp) as [_ Hout].
    pose proof (proper_prefix_shorter _ _ Hp) as Hlen.
    rewrite occurs_on_pieces; [| apply Hk, Hin | exact Hs' |].
    + destruct (has_key (names ps1) k_l) eqn:Eh; [|reflexivity].
      apply has_key_In in Eh. elim Hout. apply Hn', Eh.
    + intros k Hk'. specialize (Hn' k Hk'). split.
      * apply Hk, sort_keys_In. rewrite E. apply in_or_app. right. exact Hn'.
      * destruct Hn' as [<-|Hn']; [lia|].
        pose proof (sorted_after _ _ _ _ (sort_keys_sorted (Object_keys o)) E)
          as Hf.
        rewrite Forall_forall in Hf. specialize (Hf k Hn').
        unfold longer_first in Hf. lia.
Qed.

(** C1, as stated, fails.  With the keys [$1x] and [$1] and the query
    [a = $1xx], the longer key is replaced by [$1], the text [$1x] is
    there again when the shorter key has its turn, and the shorter key is
    matched inside it: the result is [a = $2x].  With the keys [$ab],
    whose value is the empty array, and [$a], and the query
    [x = $a$abb], erasing the longer key leaves [x = $ab], and the
    shorter key is matched inside it: the result is [x = $1b]. *)
Lemma shorter_key_matched_inside_longer :
  (~ @longer_key_gone fragment_host
       [("$1" : str, VStr "s"); ("$1x" : str, VStr "l")] "a = $1xx" /\
   @transformQuery fragment_host "a = $1xx"
       (NamedParams [("$1" : str, VStr "s"); ("$1x" : str, VStr "l")])
   = Ok ("a = $2x" : str, ArrayParams [VStr "l"; VStr "s"])) /\
  (~ @longer_key_gone fragment_host
       [("$ab" : str, VArr []); ("$a" : str, VNum 1)] "x = $a$abb" /\
   @transformQuery fragment_host "x = $a$abb"
       (NamedParams [("$ab" : str, VArr []); ("$a" : str, VNum 1)])
   = Ok ("x = $1b" : str, ArrayParams [VNum 1])).
Proof.
  split; (split; [|vm_compute; reflexivity]); intros H.
  - specialize (H ["$1x" : str] ("$1" : str) [] ("$1x" : str)
                  ("a = $1x" : str, [VStr "l"])).
    assert (E : occurs "$1x" (fst ("a = $1x" : str, [VStr "l"])) = true)
      by (vm_compute; reflexivity).
    rewrite H in E; [discriminate|..].
    + vm_compute. reflexivity.
    + cbn. auto.
    + exists ("x" : str). split; [discriminate|reflexivity].
    + vm_compute. reflexivity.
  - specialize (H ["$ab" : str] ("$a" : str) [] ("$ab" : str)
                  ("x = $ab" : str, [])).
    assert (E : occurs "$ab" (fst ("x = $ab" : str, @nil value)) = true)
      by (vm_compute; reflexivity).
    rewrite H in E; [discriminate|..].
    + vm_compute. reflexivity.
    + cbn. auto.
    + exists ("b" : str). split; [discriminate|reflexivity].
    + vm_compute. reflexivity.
Qed.

(** C1, amended.  For every parameter object the keys are processed
    longest first: the processing order is a rearrangement of the keys
    in which no key comes before a longer one and keys of equal length
    keep their order.  When the keys are [$]-prefixed identifiers and no
    value is the empty array, then in any query a key that properly
    extends another is gone from the query when the shorter one has its
    turn, so the shorter key is not matched inside an occurrence of the
    longer one.  The example of the test suite comes out as expected. *)
Theorem longest_key_first (host : RegExpHost) (o : object) (q : str) :
  Permutation (Object_keys o) (sort_keys (Object_keys o)) /\
  StronglySorted longer_first (sort_keys (Object_keys o)) /\
  (forall n, of_length n (sort_keys (Object_keys o)) =
             of_length n (Object_keys o)) /\
  (forallb is_placeholder_name (Object_keys o) = true ->
   no_empty_array o = true ->
   longer_key_gone o q) /\
  transformQuery
    "SELECT * FROM public.users WHERE field = $some_field_2 AND field2 = $some_field"
    (NamedParams [("$some_field" : str, VStr "value");
                  ("$some_field_2" : str, VStr "anotherValue")])
  = Ok ("SELECT * FROM public.users WHERE field = $1 AND field2 = $2" : str,
        ArrayParams [VStr "anotherValue"; VStr "value"]).
Proof.
  split; [apply sort_keys_perm|].
  split; [apply sort_keys_sorted|].
  split; [intros n; apply sort_keys_stable|].
  split; [intros Hn Hv; apply longer_key_gone_anywhere; assumption|].
  vm_compute. reflexivity.
Qed.

Lemma longest_key_first_witness :
  forallb is_placeholder_name
    (Object_keys [("$some_field" : str, VStr "value");
                  ("$some_field_2" : str, VStr "anotherValue")]) = true /\
  no_empty_array [("$some_field" : str, VStr "value");
                  ("$some_field_2" : str, VStr "anotherValue")] = true /\
  @longer_key_gone fragment_host
    [("$some_field" : str, VStr "value");
     ("$some_field_2" : str, VStr "anotherValue")]
    "field = $some_field_2 AND field2 = $some_field".
Proof.
  split; [reflexivity|]. split; [reflexivity|].
  apply (@longest_key_first fragment_host
           [("$some_field" : str, VStr "value");
            ("$some_field_2" : str, VStr "anotherValue")]
           "field = $some_field_2 AND field2 = $some_field");
    reflexivity.
Defined.

(* ================================================================== *)
(** ** Placeholder indices *)

(** C2, as stated, fails: a key used twice gives two placeholders for
    one parameter, and a query that already holds a positional
    placeholder keeps it whatever the parameters are. *)
Lemma indices_need_not_match :
  (@transformQuery fragment_host "x = $a OR y = $a"
     (NamedParams [("$a" : str, VNum 1)])
   = Ok ("x = $1 OR y = $1" : str, ArrayParams [VNum 1]) /\
   ~ indices_match "x = $1 OR y = $1" [VNum 1]) /\
  (@transformQuery fragment_host "x = $a AND y = $7"
     (NamedParams [("$a" : str, VNum 1)])
   = Ok ("x = $1 AND y = $7" : str, ArrayParams [VNum 1]) /\
   ~ indices_match "x = $1 AND y = $7" [VNum 1]).
Proof.
  split; (split; [vm_compute; reflexivity|]); intros [Hlen _];
    vm_compute in Hlen; discriminate.
Qed.

(** C2, amended.  For a query in named style (the keys are
    [$]-prefixed identifiers, the query is plain text and keys, each key
    ending where an identifier ends) the transformer succeeds, and the
    indices of the positional placeholders met in the rewritten query are
    exactly 1..N, N the length of the parameter list; when no key is
    used twice there are N placeholders. *)
Theorem placeholders_are_one_to_N (host : RegExpHost) (o : object)
    (ps : list piece) :
  named_query o ps = true ->
  exists (q' : str) (out : list value),
    transformQuery (render ps) (NamedParams o) = Ok (q', ArrayParams out) /\
    (forall i, In i (placeholders q') <-> 1 <= i <= length out) /\
    (NoDup (names ps) -> indices_match q' out).
Proof.
  intros H.
  destruct (transformQuery_on_pieces host o ps H) as (Ht & Hs & Hn).
  destruct (named_query_parts o ps H) as (_ & _ & _ & Hslots).
  set (final := assign_all o (sort_keys (Object_keys o)) (ps, [])) in *.
  exists (render (fst final)), (snd final).
  split; [exact Ht|].
  assert (Hc : covers final).
  { apply assign_all_covers. intros i. cbn [fst snd]. rewrite Hslots.
    cbn. lia. }
  unfold indices_match. rewrite placeholders_on_pieces by assumption.
  split; [exact Hc|].
  intros Hnd. split; [|exact Hc].
  apply assign_all_counts; [exact Hnd|].
  cbn [fst snd]. rewrite Hslots. reflexivity.
Qed.

Lemma placeholders_are_one_to_N_witness :
  let o := [("$name" : str, VStr "John");
            ("$ids" : str, VArr [VNum 1; VNum 2])] in
  let ps := text "name = " ++ [Name "$name"] ++ text " AND id IN (" ++
            [Name "$ids"] ++ text ")" in
  render ps = ("name = $name AND id IN ($ids)" : str) /\
  exists (q' : str) (out : list value),
    @transformQuery fragment_host (render ps) (NamedParams o)
      = Ok (q', ArrayParams out) /\
    (forall i, In i (placeholders q') <-> 1 <= i <= length out) /\
    (NoDup (names ps) -> indices_match q' out).
Proof.
  split; [reflexivity|].
  apply (@placeholders_are_one_to_N fragment_host
           [("$name" : str, VStr "John");
            ("$ids" : str, VArr [VNum 1; VNum 2])]
           (text "name = " ++ [Name "$name"] ++ text " AND id IN (" ++
            [Name "$ids"] ++ text ")")).
  vm_compute. reflexivity.
Defined.

(* ================================================================== *)
(** ** Keys and patterns *)

(** C3.  The key is given to the pattern engine with only its [$]
    escaped: the key [$a.b] does not occur in [x = $aXb], and yet the
    transformer finds it there and rewrites the query; and a key that
    ends in a backslash makes the transformer throw the engine's
    [SyntaxError]. *)
Theorem key_is_read_as_a_pattern (host : RegExpHost) :
  occurs "$a.b" "x = $aXb" = false /\
  transformQuery "x = $aXb" (NamedParams [("$a.b" : str, VNum 1)])
    = Ok ("x = $1" : str, ArrayParams [VNum 1]) /\
  transformQuery "x = 1" (NamedParams [("$a\" : str, VNum 1)])
    = Throw (SyntaxError "\$a\").
Proof. repeat split; vm_compute; reflexivity. Qed.

(* ================================================================== *)
(** ** Empty arrays and repeated keys *)




(** C10.  A key with a backslash that is in the query twice is not
    listed once: only [$] is escaped when the pattern is made of the
    key, so the pattern of the key [$a\.b] stands for the text [$a.b];
    the key is not found, nothing is replaced and its value is not
    listed -- with any engine. *)
Theorem repeated_key_with_backslash_is_not_listed (host : RegExpHost) :
  occurs "$a\.b" "x = $a\.b OR y = $a\.b" = true /\
  occurs "$a\.b" " OR y = $a\.b" = true /\
  transformQuery "x = $a\.b OR y = $a\.b"
    (NamedParams [("$a\.b" : str, VNum 5)])
  = Ok ("x = $a\.b OR y = $a\.b" : str, ArrayParams []).
Proof. repeat split; vm_compute; reflexivity. Qed.

(* ================================================================== *)
(** ** Keys that do not start with a dollar sign *)

Section InvalidNames.

Context {host : RegExpHost}.

(** An iteration throws only for a key without [$] or for a pattern the
    engine refuses. *)
Lemma step_throws (o : object) (key : str) (st : str * list value)
    (e : error) :
  step o key st = Throw e ->
  (startsWith key "$" = false /\ e = InvalidParameterName key) \/
  (startsWith key "$" = true /\ new_RegExp (escape_dollar key) = None /\
   e = SyntaxError (escape_dollar key)).
Proof.
  destruct st as [q out]. unfold step.
  destruct (startsWith key "$"); cbn [negb].
  - destruct (new_RegExp (escape_dollar key)) as [rx|].
    + destruct (test rx q); cbn [negb]; [|discriminate].
      destruct (isArray (get o key)); [|discriminate].
      destruct (spread (items_of (get o key)) out []). discriminate.
    + intros H. injection H as <-. auto.
  - intros H. injection H as <-. auto.
Qed.

Lemma step_returns (o : object) (key : str) (st : str * list value) :
  startsWith key "$" = true -> new_RegExp (escape_dollar key) <> None ->
  exists st', step o key st = Ok st'.
Proof.
  intros Hd Hrx. destruct (step o key st) as [st'|e] eqn:E; [eauto|].
  destruct (step_throws o key st e E) as [[H _]|[_ [H _]]]; congruence.
Qed.

Lemma loop_invalid_name (o : object) (keys : list str)
    (st : str * list value) (bad : str) :
  loop o keys st = Throw (InvalidParameterName bad) ->
  In bad keys /\ startsWith bad "$" = false.
Proof.
  revert st. induction keys as [|key keys IH]; intros st; [discriminate|].
  cbn [loop]. destruct (step o key st) as [st'|e] eqn:E.
  - intros H. destruct (IH st' H). cbn. auto.
  - intros H. injection H as ->.
    destruct (step_throws o key st _ E) as [[Hd He]|[_ [_ He]]];
      [|discriminate].
    injection He as <-. cbn. auto.
Qed.

(** The first key without [$], in processing order, is the one reported,
    provided the engine accepts the keys before it. *)
Lemma loop_reports_invalid_name (o : object) (keys : list str) :
  (forall k, In k keys -> startsWith k "$" = true ->
             new_RegExp (escape_dollar k) <> None) ->
  existsb (fun k => negb (startsWith k "$")) keys = true ->
  forall st, exists bad,
    In bad keys /\ startsWith bad "$" = false /\
    loop o keys st = Throw (InvalidParameterName bad).
Proof.
  induction keys as [|key keys IH]; intros Hrx Hex st; [discriminate|].
  cbn [existsb] in Hex. cbn [loop].
  destruct (startsWith key "$") eqn:Hd.
  - cbn [negb orb] in Hex.
    destruct (step_returns o key st Hd) as [st' E];
      [apply Hrx; cbn; auto|].
    rewrite E.
    destruct (IH (fun k H => Hrx k (or_intror H)) Hex st')
      as (bad & Hin & Hb & Hl).
    exists bad. cbn. auto.
  - exists key. unfold step. destruct st as [q out]. rewrite Hd.
    cbn. auto.
Qed.

Lemma transformQuery_invalid_name (q : str) (o : object) (bad : str) :
  transformQuery q (NamedParams o) = Throw (InvalidParameterName bad) ->
  In bad (Object_keys o) /\ startsWith bad "$" = false.
Proof.
  unfold transformQuery.
  destruct (loop o (sort_keys (Object_keys o)) (q, [])) as [[q' out]|e] eqn:E;
    [discriminate|].
  intros H. injection H as ->.
  destruct (loop_invalid_name _ _ _ _ E) as [Hin Hb].
  split; [apply sort_keys_In, Hin|exact Hb].
Qed.

Context {pg : PgHost}.

(** An error of [queryMultiple] is the transformer's or the driver's. *)
Lemma queryMultiple_error (q : str) (p : params) (supplied : option client)
    (t : trace) (e : error) :
  fst (queryMultiple q p supplied t) = Throw e ->
  transformQuery q p = Throw e \/ exists code, e = HostError code.
Proof.
  assert (Hs : forall c t, fst (queryMultiple q p (Some c) t) = Throw e ->
               transformQuery q p = Throw e \/ exists code, e = HostError code).
  { intros c t0. rewrite queryMultiple_supplied.
    destruct (transformQuery q p) as [tq|e']; cbn.
    - destruct (client_query _ c (fst tq) (snd tq)); cbn; [discriminate|].
      intros H. injection H as <-. eauto.
    - intros H. injection H as <-. auto. }
  destruct supplied as [c|]; [apply Hs|].
  destruct (pool_connect t) as [c|code] eqn:Hc.
  - rewrite (queryMultiple_owned q p t c Hc).
    specialize (Hs c (t ++ [PoolConnect (Ok c)])).
    destruct (queryMultiple q p (Some c) (t ++ [PoolConnect (Ok c)])).
    exact Hs.
  - rewrite (queryMultiple_acquisition_failed q p t code Hc). cbn.
    intros H. injection H as <-. eauto.
Qed.

End InvalidNames.

(** The other query functions throw what [queryMultiple] throws. *)
Lemma query_functions_errors (host : RegExpHost) (pg : PgHost) (q : str)
    (p : params) (supplied : option client) (t : trace) (e : error) :
  (fst (query q p supplied t) = Throw e <->
   fst (queryMultiple q p supplied t) = Throw e) /\
  (fst (querySingle q p supplied t) = Throw e <->
   fst (queryMultiple q p supplied t) = Throw e) /\
  (fst (queryScalar q p supplied t) = Throw e <->
   fst (queryMultiple q p supplied t) = Throw e).
Proof.
  unfold queryScalar, querySingle, query, bind, ret.
  destruct (queryMultiple q p supplied t) as [[rows|e'] t']; cbn.
  - destruct rows; cbn; repeat split; intros H; discriminate H.
  - repeat split; intros H; congruence.
Qed.

(** C7, as stated, fails for the query functions: without a client,
    [queryMultiple] acquires a connection before it runs the transformer,
    so the error is raised after the pool was called (and the connection
    is released afterwards); when the acquisition fails, the error raised
    is the pool's. *)
Lemma invalid_name_raised_after_acquisition :
  let p := NamedParams [("name" : str, VStr "John")] in
  let q : str := "SELECT * FROM public.users WHERE name = name" in
  @queryMultiple fragment_host (sample_pg true (fun _ => false) []) q p None []
  = (Throw (InvalidParameterName "name"),
     [PoolConnect (Ok 7); Logged ERROR; Logged ERROR; ClientRelease 7]) /\
  ~ no_driver_call []
      (snd (@queryMultiple fragment_host (sample_pg true (fun _ => false) [])
              q p None [])) /\
  fst (@queryMultiple fragment_host (sample_pg false (fun _ => false) [])
         q p None [])
  = Throw (HostError 1).
Proof.
  split; [vm_compute; reflexivity|].
  split; [|vm_compute; reflexivity].
  intros (evs & E & H). cbn in E. subst evs. vm_compute in H. discriminate.
Qed.

(** C7, amended.  When every key starts with [$], neither the
    transformer nor a query function raises [InvalidParameterName].  When
    some key does not (and the engine accepts the keys that do), the
    transformer -- a function, it touches no connection -- raises
    [InvalidParameterName] for such a key, and so does [queryMultiple]
    without sending any statement: on a caller's client it only logs;
    without one it first acquires a client, raises the error and
    releases the client, or raises the pool's error when the acquisition
    fails.  [query], [querySingle] and [queryScalar] raise what
    [queryMultiple] raises. *)
Theorem invalid_name_raised_before_any_statement
    (host : RegExpHost) (pg : PgHost) (q : str) (o : object)
    (supplied : option client) (t : trace) :
  ((forall k, In k (Object_keys o) -> startsWith k "$" = true) ->
   forall bad,
     transformQuery q (NamedParams o) <> Throw (InvalidParameterName bad) /\
     fst (queryMultiple q (NamedParams o) supplied t)
       <> Throw (InvalidParameterName bad) /\
     fst (query q (NamedParams o) supplied t)
       <> Throw (InvalidParameterName bad) /\
     fst (querySingle q (NamedParams o) supplied t)
       <> Throw (InvalidParameterName bad) /\
     fst (queryScalar q (NamedParams o) supplied t)
       <> Throw (InvalidParameterName bad)) /\
  ((forall k, In k (Object_keys o) -> startsWith k "$" = true ->
              new_RegExp (escape_dollar k) <> None) ->
   existsb (fun k => negb (startsWith k "$")) (Object_keys o) = true ->
   exists bad,
     In bad (Object_keys o) /\ startsWith bad "$" = false /\
     transformQuery q (NamedParams o) = Throw (InvalidParameterName bad) /\
     no_statement_sent t (snd (queryMultiple q (NamedParams o) supplied t)) /\
     match supplied with
     | Some c =>
         queryMultiple q (NamedParams o) (Some c) t =
         (Throw (InvalidParameterName bad),
          (t ++ [Logged ERROR]) ++ [Logged ERROR])
     | None =>
         match pool_connect t with
         | Resolved c =>
             queryMultiple q (NamedParams o) None t =
             (Throw (InvalidParameterName bad),
              (((t ++ [PoolConnect (Ok c)]) ++ [Logged ERROR])
                 ++ [Logged ERROR]) ++ [ClientRelease c])
         | Rejected code =>
             queryMultiple q (NamedParams o) None t =
             (Throw (HostError code),
              (t ++ [PoolConnect (Throw (HostError code))])
                ++ [Logged ERROR])
         end
     end /\
     (forall e,
        fst (queryMultiple q (NamedParams o) supplied t) = Throw e ->
        fst (query q (NamedParams o) supplied t) = Throw e /\
        fst (querySingle q (NamedParams o) supplied t) = Throw e /\
        fst (queryScalar q (NamedParams o) supplied t) = Throw e)).
Proof.
  split.
  - intros Hall bad.
    assert (Ht : transformQuery q (NamedParams o)
                 <> Throw (InvalidParameterName bad)).
    { intros H. destruct (transformQuery_invalid_name q o bad H) as [Hin Hb].
      rewrite (Hall bad Hin) in Hb. discriminate. }
    assert (Hm : fst (queryMultiple q (NamedParams o) supplied t)
                 <> Throw (InvalidParameterName bad)).
    { intros H. apply queryMultiple_error in H.
      destruct H as [H|[code H]]; [auto|discriminate]. }
    destruct (query_functions_errors host pg q (NamedParams o) supplied t
                (InvalidParameterName bad)) as (H1 & H2 & H3).
    repeat split; auto; intros H; apply Hm; [apply H1|apply H2|apply H3];
      exact H.
  - intros Hrx Hex.
    destruct (loop_reports_invalid_name o (sort_keys (Object_keys o)))
      with (st := (q, @nil value)) as (bad & Hin & Hb & Hl).
    + intros k Hk. apply Hrx, sort_keys_In, Hk.
    + rewrite existsb_exists in *. destruct Hex as (k & Hk & Hkb).
      exists k. split; [apply sort_keys_In, Hk|exact Hkb].
    + exists bad.
      assert (Ht : transformQuery q (NamedParams o)
                   = Throw (InvalidParameterName bad))
        by (unfold transformQuery; rewrite Hl; reflexivity).
      assert (Hs : forall c t0,
                queryMultiple q (NamedParams o) (Some c) t0 =
                (Throw (InvalidParameterName bad),
                 (t0 ++ [Logged ERROR]) ++ [Logged ERROR]))
        by (intros c t0; rewrite queryMultiple_supplied, Ht; reflexivity).
      split; [apply sort_keys_In, Hin|]. split; [exact Hb|].
      split; [exact Ht|].
      assert (Hcase :
        match supplied with
        | Some c =>
            queryMultiple q (NamedParams o) (Some c) t =
            (Throw (InvalidParameterName bad),
             (t ++ [Logged ERROR]) ++ [Logged ERROR])
        | None =>
            match pool_connect t with
            | Resolved c =>
                queryMultiple q (NamedParams o) None t =
                (Throw (InvalidParameterName bad),
                 (((t ++ [PoolConnect (Ok c)]) ++ [Logged ERROR])
                    ++ [Logged ERROR]) ++ [ClientRelease c])
            | Rejected code =>
                queryMultiple q (NamedParams o) None t =
                (Throw (HostError code),
                 (t ++ [PoolConnect (Throw (HostError code))])
                   ++ [Logged ERROR])
            end
        end).
      { destruct supplied as [c|]; [apply Hs|].
        destruct (pool_connect t) as [c|code] eqn:Hc.
        - rewrite (queryMultiple_owned q (NamedParams o) t c Hc), Hs.
          reflexivity.
        - apply queryMultiple_acquisition_failed, Hc. }
      split; [|split; [exact Hcase|]].
      * unfold no_statement_sent.
        destruct supplied as [c|]; [|destruct (pool_connect t) as [c|code]];
          rewrite Hcase; cbn [snd]; repeat rewrite <- app_assoc;
          eexists; split; reflexivity.
      * intros e He.
        destruct (query_functions_errors host pg q (NamedParams o) supplied t e)
          as (H1 & H2 & H3).
        repeat split; [apply H1|apply H2|apply H3]; exact He.
Qed.

Lemma invalid_name_raised_before_any_statement_witness :
  exists bad,
    In bad [("name" : str)] /\ startsWith bad "$" = false /\
    @transformQuery fragment_host
      "SELECT * FROM public.users WHERE name = name"
      (NamedParams [("name" : str, VStr "John")])
    = Throw (InvalidParameterName bad).
Proof.
  destruct (proj2 (@invalid_name_raised_before_any_statement fragment_host
                     (sample_pg true (fun _ => false) [])
                     "SELECT * FROM public.users WHERE name = name"
                     [("name" : str, VStr "John")] None []))
    as (bad & Hin & Hb & Ht & _).
  - intros k [<-|[]] H. discriminate.
  - reflexivity.
  - exists bad. auto.
Defined.

(* ================================================================== *)
(** ** Further properties of the transformer and of the query functions *)

(** X1.  On a query in named style -- every key a [$]-prefixed
    identifier, the query made of plain text and of keys, each ending
    where an identifier ends -- the transformer returns the query in which
    every key has become the placeholders assigned to it, the keys taken
    longest first, and the parameters in the order of assignment; no
    named placeholder is left. *)
Theorem named_query_rewritten_piecewise (host : RegExpHost) (o : object)
    (ps : list piece) :
  named_query o ps = true ->
  let final := assign_all o (sort_keys (Object_keys o)) (ps, []) in
  transformQuery (render ps) (NamedParams o) =
    Ok (render (fst final), ArrayParams (snd final)) /\
  names (fst final) = [].
Proof.
  intros H final.
  destruct (transformQuery_on_pieces host o ps H) as (Ht & _ & Hn).
  split; assumption.
Qed.

Lemma named_query_rewritten_piecewise_witness :
  let o := [("$id" : str, VNum 7); ("$id_2" : str, VNum 8)] in
  let ps := text "a = " ++ [Name "$id"] ++ text " OR b = " ++
            [Name "$id_2"] ++ text " OR c = " ++ [Name "$id"] in
  @transformQuery fragment_host "a = $id OR b = $id_2 OR c = $id"
    (NamedParams o)
  = Ok ("a = $2 OR b = $1 OR c = $2" : str, ArrayParams [VNum 8; VNum 7]).
Proof.
  exact (proj1 (@named_query_rewritten_piecewise fragment_host
                  [("$id" : str, VNum 7); ("$id_2" : str, VNum 8)]
                  (text "a = " ++ [Name "$id"] ++ text " OR b = " ++
                   [Name "$id_2"] ++ text " OR c = " ++ [Name "$id"])
                  eq_refl)).
Defined.

(** X3.  A plain key that does not occur in the query is skipped: the
    query and the parameter list are left as they are. *)
Theorem unused_key_is_skipped (host : RegExpHost) (o : object)
    (key q : str) (out : list value) :
  startsWith key "$" = true -> plain_key key = true ->
  occurs key q = false ->
  step o key (q, out) = Ok (q, out).
Proof.
  intros Hd Hp Hocc. rewrite step_plain, Hocc by assumption. reflexivity.
Qed.

Lemma unused_key_is_skipped_witness :
  @step fragment_host [("$unused" : str, VStr "x")] "$unused"
    ("name = $1" : str, [VStr "John"])
  = Ok ("name = $1" : str, [VStr "John"]).
Proof.
  apply (@unused_key_is_skipped fragment_host [("$unused" : str, VStr "x")]
           "$unused" "name = $1" [VStr "John"]); reflexivity.
Defined.

Section TransactionRun.

Context {host : RegExpHost} {pg : PgHost}.

Lemma queryMultiple_supplied_uses (q : str) (p : params) (c : client)
    (t : trace) :
  exists evs,
    snd (queryMultiple q p (Some c) t) = t ++ evs /\
    (forall c', releases_of c' evs = 0) /\
    existsb is_connect evs = false /\
    forallb (uses_only c) evs = true.
Proof.
  rewrite queryMultiple_supplied.
  destruct (transformQuery q p) as [tq|e]; cbn [snd].
  - destruct (client_query _ c (fst tq) (snd tq)); cbn [snd];
      repeat rewrite <- app_assoc;
      eexists; (split; [reflexivity|]); repeat split;
      cbn; rewrite Nat.eqb_refl; reflexivity.
  - repeat rewrite <- app_assoc.
    eexists; (split; [reflexivity|]); repeat split.
Qed.

Lemma run_statements_uses (statements : list (str * params)) (c : client)
    (t : trace) :
  exists evs,
    snd (run_statements statements c t) = t ++ evs /\
    (forall c', releases_of c' evs = 0) /\
    existsb is_connect evs = false /\
    forallb (uses_only c) evs = true.
Proof.
  revert t. induction statements as [|[q p] rest IH]; intros t.
  - exists []. cbn. rewrite app_nil_r. auto.
  - cbn [run_statements]. unfold bind at 1.
    destruct (queryMultiple_supplied_uses q p c t) as (e1 & E1 & R1 & A1 & U1).
    rewrite <- query_trace in E1.
    destruct (query q p (Some c) t) as [[[]|e] t1]; cbn [snd] in E1; subst t1.
    + destruct (IH (t ++ e1)) as (e2 & E2 & R2 & A2 & U2).
      exists (e1 ++ e2). rewrite E2, app_assoc.
      split; [reflexivity|]. split; [|split].
      * intros c'. rewrite releases_of_app, R1, R2. reflexivity.
      * rewrite existsb_app, A1, A2. reflexivity.
      * rewrite forallb_app, U1, U2. reflexivity.
    + exists e1. auto.
Qed.

End TransactionRun.

(** X5.  A transaction written as in the README that ends normally --
    committed, or rolled back after a statement or the commit failed --
    acquired one client, sent every statement on that client, and
    released it exactly once, as its last action: the statements
    themselves release nothing, and a failed commit leaves the release
    to the rollback. *)
Theorem ended_transaction_releases_once (host : RegExpHost)
    (pg : PgHost) (statements : list (str * params)) (t t' : trace) :
  transaction statements t = (Ok tt, t') ->
  exists (c : client) (mid : trace),
    t' = t ++ PoolConnect (Ok c) :: mid ++ [ClientRelease c] /\
    (forall c', releases_of c' mid = 0) /\
    existsb is_connect mid = false /\
    forallb (uses_only c) mid = true.
Proof.
  unfold transaction. unfold bind at 1.
  rewrite beginTransaction_cases.
  destruct (pool_connect t) as [c|code]; [|discriminate].
  cbv zeta.
  destruct (client_query _ c "BEGIN" NoParams) as [rows|code]; [|discriminate].
  set (begun := ClientQuery c "BEGIN" NoParams (Ok rows)).
  set (t1 := (t ++ [PoolConnect (Ok c)]) ++ [begun]).
  destruct (run_statements_uses statements c t1) as (e & E & R & A & U).
  unfold try_catch, bind.
  unfold commitTransaction, rollbackTransaction.
  destruct (run_statements statements c t1) as [[[]|err] t2];
    cbn [snd] in E; subst t2.
  - rewrite statement_then_release.
    destruct (client_query (t1 ++ e) c "COMMIT" NoParams) as [rows'|code].
    + intros H. injection H as <-.
      exists c, (begun :: e ++ [ClientQuery c "COMMIT" NoParams (Ok rows')]).
      unfold t1. split; [|split; [|split]].
      * repeat (rewrite <- app_assoc; cbn [app]). reflexivity.
      * intros c'. cbn [releases_of begun].
        rewrite releases_of_app, R. reflexivity.
      * cbn [existsb is_connect orb begun]. rewrite existsb_app, A.
        reflexivity.
      * cbn [forallb uses_only begun].
        rewrite Nat.eqb_refl, forallb_app, U.
        cbn. rewrite Nat.eqb_refl. reflexivity.
    + rewrite statement_then_release.
      set (failed := ClientQuery c "COMMIT" NoParams (Throw (HostError code))).
      destruct (client_query _ c "ROLLBACK" NoParams) as [rows'|code'];
        [|discriminate].
      intros H. injection H as <-.
      exists c, (begun :: e ++ [failed] ++
                 [ClientQuery c "ROLLBACK" NoParams (Ok rows')]).
      unfold t1. split; [|split; [|split]].
      * repeat (rewrite <- app_assoc; cbn [app]). reflexivity.
      * intros c'. cbn [releases_of begun].
        rewrite releases_of_app, R. reflexivity.
      * cbn [existsb is_connect orb begun]. rewrite existsb_app, A.
        reflexivity.
      * cbn [forallb uses_only begun].
        rewrite Nat.eqb_refl, forallb_app, U.
        cbn. rewrite Nat.eqb_refl. reflexivity.
  - rewrite statement_then_release.
    destruct (client_query _ c "ROLLBACK" NoParams) as [rows'|code'];
      [|discriminate].
    intros H. injection H as <-.
    exists c, (begun :: e ++ [ClientQuery c "ROLLBACK" NoParams (Ok rows')]).
    unfold t1. split; [|split; [|split]].
    + repeat (rewrite <- app_assoc; cbn [app]). reflexivity.
    + intros c'. cbn [releases_of begun].
      rewrite releases_of_app, R. reflexivity.
    + cbn [existsb is_connect orb begun]. rewrite existsb_app, A.
      reflexivity.
    + cbn [forallb uses_only begun].
      rewrite Nat.eqb_refl, forallb_app, U.
      cbn. rewrite Nat.eqb_refl. reflexivity.
Qed.

Lemma ended_transaction_releases_once_witness :
  exists (c : client) (mid : trace),
    snd (@transaction fragment_host
           (sample_pg true (fun text => str_eqb text "COMMIT") [])
           [("UPDATE t SET a = $a" : str,
             NamedParams [("$a" : str, VNum 1)])] [])
    = [] ++ PoolConnect (Ok c) :: mid ++ [ClientRelease c] /\
    (forall c', releases_of c' mid = 0) /\
    existsb is_connect mid = false /\
    forallb (uses_only c) mid = true.
Proof.
  apply (@ended_transaction_releases_once fragment_host
           (sample_pg true (fun text => str_eqb text "COMMIT") [])
           [("UPDATE t SET a = $a" : str, NamedParams [("$a" : str, VNum 1)])]
           []).
  vm_compute. reflexivity.
Defined.

(* ================================================================== *)
(** ** The logger *)

Lemma logLevel_range (env : environment) : 1 <= logLevel env <= 5.
Proof.
  unfold logLevel. destruct (env _) as [v|]; [|lia].
  repeat match goal with |- context [if ?b then _ else _] =>
    destruct b end; lia.
Qed.

(** X6.  The logger respects severity: when a method writes to the
    console, so does every method at least as severe. *)
Theorem logger_respects_severity (env : environment) (l1 l2 : log_level)
    (a1 a2 : str) :
  severity l1 <= severity l2 ->
  logger env l1 a1 <> [] -> logger env l2 a2 <> [].
Proof.
  pose proof (logLevel_range env) as Hr.
  destruct l1, l2; cbn [severity logger]; intros Hs H;
    try lia; try exact H;
    repeat match goal with
           | H : context [(?a <=? ?b)%nat] |- _ =>
               destruct (Nat.leb_spec a b)
           | |- context [(?a <=? ?b)%nat] =>
               destruct (Nat.leb_spec a b)
           end; try discriminate; try congruence; try lia.
Qed.

Lemma logger_respects_severity_witness :
  logger (env_of [("PG_CLIENT_HELPER_LOGLEVEL" : str, "WARN" : str)])
    ERROR "failed" <> [].
Proof.
  apply (logger_respects_severity
           (env_of [("PG_CLIENT_HELPER_LOGLEVEL" : str, "WARN" : str)])
           WARN ERROR "slow" "failed").
  - cbn. lia.
  - discriminate.
Defined.

Lemma logLevel_names (env : environment) :
  logLevel env <= 4 <->
  exists v, env "PG_CLIENT_HELPER_LOGLEVEL" = Some v /\
            In v [("DEBUG" : str); ("INFO" : str); ("WARN" : str);
                  ("ERROR" : str)].
Proof.
  unfold logLevel.
  destruct (env "PG_CLIENT_HELPER_LOGLEVEL") as [v|].
  - destruct (str_eqb v "DEBUG") eqn:E1;
      [apply str_eqb_eq in E1; split; [intros _; exists v; cbn; auto|lia]|].
    destruct (str_eqb v "INFO") eqn:E2;
      [apply str_eqb_eq in E2; split; [intros _; exists v; cbn; auto|lia]|].
    destruct (str_eqb v "WARN") eqn:E3;
      [apply str_eqb_eq in E3; split; [intros _; exists v; cbn; auto|lia]|].
    destruct (str_eqb v "ERROR") eqn:E4;
      [apply str_eqb_eq in E4; split; [intros _; exists v; cbn; auto 6|lia]|].
    apply str_eqb_neq in E1, E2, E3, E4.
    assert (H5 : (if str_eqb v "SILENT" then 5 else 5) = 5)
      by (destruct (str_eqb v "SILENT"); reflexivity).
    rewrite H5. split; [lia|].
    intros (v' & Hv & Hin). injection Hv as <-.
    destruct Hin as [<-|[<-|[<-|[<-|[]]]]]; congruence.
  - split; [lia|]. intros (v & Hv & _). discriminate.
Qed.

(** X7.  The logger is silent unless the variable
    [PG_CLIENT_HELPER_LOGLEVEL] is exactly [DEBUG], [INFO], [WARN] or
    [ERROR]: unset, [SILENT] or spelled otherwise (another case, say),
    no method writes anything; set to one of the four, [logger.error]
    writes. *)
Theorem logger_silent_unless_level_named (env : environment) :
  (forall a, logger env ERROR a = [(console_error, a)]) /\
    (exists v, env "PG_CLIENT_HELPER_LOGLEVEL" = Some v /\
               In v [("DEBUG" : str); ("INFO" : str); ("WARN" : str);
                     ("ERROR" : str)])
  \/
  (forall l a, logger env l a = []) /\
    ~ (exists v, env "PG_CLIENT_HELPER_LOGLEVEL" = Some v /\
                 In v [("DEBUG" : str); ("INFO" : str); ("WARN" : str);
                       ("ERROR" : str)]).
Proof.
  pose proof (logLevel_names env) as Hn.
  pose proof (logLevel_range env) as Hr.
  destruct (Nat.le_gt_cases (logLevel env) 4) as [H|H].
  - left. split; [|apply Hn, H].
    intros a. cbn [logger].
    destruct (Nat.leb_spec (logLevel env) 4); [reflexivity|lia].
  - right. split; [|rewrite <- Hn; lia].
    intros l a. destruct l; cbn [logger];
      match goal with |- context [(?a <=? ?b)%nat] =>
        destruct (Nat.leb_spec a b) end; try reflexivity; lia.
Qed.

(* ================================================================== *)
(** ** Flags and pool options *)

Ltac by_cases_on_lower c :=
  destruct c as [[] [] [] [] [] [] [] []]; vm_compute; intros H;
  try discriminate H; auto.

Lemma lower_t (c : ascii) : lower c = "t"%char -> c = "t"%char \/ c = "T"%char.
Proof. by_cases_on_lower c. Qed.

Lemma lower_r (c : ascii) : lower c = "r"%char -> c = "r"%char \/ c = "R"%char.
Proof. by_cases_on_lower c. Qed.

Lemma lower_u (c : ascii) : lower c = "u"%char -> c = "u"%char \/ c = "U"%char.
Proof. by_cases_on_lower c. Qed.

Lemma lower_e (c : ascii) : lower c = "e"%char -> c = "e"%char \/ c = "E"%char.
Proof. by_cases_on_lower c. Qed.

(** X8.  On the value of an environment variable [isTrue] never throws,
    and it answers [true] exactly for the word [true] written in any
    mix of upper and lower case: an unset variable, [1], [yes] or
    [true] with a space are not true. *)
Theorem isTrue_of_environment_variable (v : option str) :
  exists b,
    isTrue (env_value v) = Some b /\
    (b = true <->
     exists c1 c2 c3 c4,
       v = Some [c1; c2; c3; c4] /\
       (c1 = "t"%char \/ c1 = "T"%char) /\ (c2 = "r"%char \/ c2 = "R"%char) /\
       (c3 = "u"%char \/ c3 = "U"%char) /\ (c4 = "e"%char \/ c4 = "E"%char)).
Proof.
  destruct v as [s|]; cbn [env_value isTrue].
  - eexists. split; [reflexivity|].
    rewrite str_eqb_eq. split.
    + intros H.
      destruct s as [|c1 [|c2 [|c3 [|c4 [|c5 s]]]]]; try discriminate H.
      cbn in H. injection H as H1 H2 H3 H4.
      exists c1, c2, c3, c4.
      auto 10 using lower_t, lower_r, lower_u, lower_e.
    + intros (c1 & c2 & c3 & c4 & E & H1 & H2 & H3 & H4).
      injection E as ->.
      destruct H1 as [-> | ->], H2 as [-> | ->], H3 as [-> | ->],
        H4 as [-> | ->]; reflexivity.
  - exists false. split; [reflexivity|].
    split; [discriminate|]. intros (c1 & c2 & c3 & c4 & E & _).
    discriminate.
Qed.

Lemma isTrue_flag (env : environment) (name : str) :
  isTrue (env_value (env name)) = Some (flag_on env name).
Proof.
  unfold flag_on.
  destruct (env name) as [s|]; cbn [env_value isTrue]; [|reflexivity].
  destruct (str_eqb (toLowerCase s) "true"); reflexivity.
Qed.

(** [initPool] with the three flags read. *)
Lemma initPool_flags (env : environment) (ca_file : option str) :
  initPool env ca_file =
  let required := flag_on env "PG_SSL_REQUIRED" in
  let selfsigned := flag_on env "PG_SSL_ALLOW_SELFSIGNED" in
  let options password ssl :=
    {| host_option := env "PGHOST";
       port_option := Number (env "PGPORT");
       user_option := env "PGUSER";
       password_option := password;
       database_option := env "PGDATABASE";
       ssl_option := ssl |} in
  if flag_on env "PG_USE_AWS_RDS_SIGNER" then
    match ca_file with
    | None =>
        (logger env DEBUG "[RDS SIGNER] providing function as password",
         inl CaBundleError)
    | Some ca =>
        (logger env DEBUG "[RDS SIGNER] providing function as password",
         inr (options password_getAuthToken
                (ssl_object (if required then Some true else None)
                   (negb selfsigned) (Some ca))))
    end
  else
    ([], inr (options (password_text (env "PGPASSWORD"))
                (if required || selfsigned
                 then ssl_object (Some true) false None
                 else ssl_false))).
Proof.
  unfold initPool. rewrite !isTrue_flag. cbv zeta.
  destruct (flag_on env "PG_USE_AWS_RDS_SIGNER").
  - destruct ca_file as [ca|]; [|reflexivity].
    destruct (flag_on env "PG_SSL_REQUIRED"); reflexivity.
  - destruct (flag_on env "PG_SSL_REQUIRED"),
      (flag_on env "PG_SSL_ALLOW_SELFSIGNED"); reflexivity.
Qed.

(** X9.  Without the signer flag [initPool] reads no file, writes
    nothing and does not fail; the password is [PGPASSWORD]; and [ssl]
    is [false] when neither [PG_SSL_REQUIRED] nor
    [PG_SSL_ALLOW_SELFSIGNED] is set, and otherwise the same object for
    either flag: required, without a CA and with certificate
    verification off. *)
Theorem initPool_without_signer (env : environment) (ca_file : option str) :
  flag_on env "PG_USE_AWS_RDS_SIGNER" = false ->
  exists opts,
    initPool env ca_file = ([], inr opts) /\
    initPool env None = ([], inr opts) /\
    password_option opts = password_text (env "PGPASSWORD") /\
    (flag_on env "PG_SSL_REQUIRED" = false ->
     flag_on env "PG_SSL_ALLOW_SELFSIGNED" = false ->
     ssl_option opts = ssl_false) /\
    (flag_on env "PG_SSL_REQUIRED" = true \/
     flag_on env "PG_SSL_ALLOW_SELFSIGNED" = true ->
     ssl_option opts = ssl_object (Some true) false None).
Proof.
  intros Hs. rewrite !initPool_flags, Hs. cbv zeta.
  eexists. split; [reflexivity|]. split; [reflexivity|].
  split; [reflexivity|]. cbn [ssl_option]. split.
  - intros -> ->. reflexivity.
  - intros [-> | ->]; [reflexivity|].
    rewrite orb_true_r. reflexivity.
Qed.

Lemma initPool_without_signer_witness :
  exists opts,
    initPool (env_of [("PG_SSL_REQUIRED" : str, "TRUE" : str);
                      ("PGPASSWORD" : str, "secret" : str)]) (Some []) =
      ([], inr opts) /\
    password_option opts = password_text (Some ("secret" : str)) /\
    ssl_option opts = ssl_object (Some true) false None.
Proof.
  destruct (initPool_without_signer
              (env_of [("PG_SSL_REQUIRED" : str, "TRUE" : str);
                       ("PGPASSWORD" : str, "secret" : str)]) (Some [])
              eq_refl) as (opts & H1 & _ & H2 & _ & H3).
  exists opts. split; [exact H1|]. split; [exact H2|].
  apply H3. left. reflexivity.
Defined.

(** X10.  With the signer flag and a readable CA bundle, the password
    handed to the pool is the token function whatever [PGPASSWORD] is,
    and [ssl] carries the bundle, verifies certificates unless
    [PG_SSL_ALLOW_SELFSIGNED] is set, and has [require] only when
    [PG_SSL_REQUIRED] is set; the token function asks the signer for the
    host, port and user the pool was given.  With an unreadable bundle
    [initPool] throws and no pool is made. *)
Theorem initPool_with_signer (env : environment) (ca_file : option str) :
  flag_on env "PG_USE_AWS_RDS_SIGNER" = true ->
  match ca_file with
  | None => snd (initPool env ca_file) = inl CaBundleError
  | Some ca =>
      exists opts,
        snd (initPool env ca_file) = inr opts /\
        password_option opts = password_getAuthToken /\
        ssl_option opts =
          ssl_object
            (if flag_on env "PG_SSL_REQUIRED" then Some true else None)
            (negb (flag_on env "PG_SSL_ALLOW_SELFSIGNED")) (Some ca) /\
        signer_hostname (snd (getAuthToken env)) = host_option opts /\
        signer_port (snd (getAuthToken env)) = port_option opts /\
        signer_username (snd (getAuthToken env)) = user_option opts
  end.
Proof.
  intros Hs. rewrite initPool_flags, Hs. cbv zeta.
  destruct ca_file as [ca|]; [|reflexivity].
  eexists. split; [reflexivity|]. repeat split.
Qed.

Lemma initPool_with_signer_witness :
  exists opts,
    snd (initPool (env_of [("PG_USE_AWS_RDS_SIGNER" : str, "true" : str);
                           ("PGPASSWORD" : str, "secret" : str)])
           (Some ("CA" : str))) = inr opts /\
    password_option opts = password_getAuthToken /\
    ssl_option opts = ssl_object None true (Some ("CA" : str)).
Proof.
  destruct (initPool_with_signer
              (env_of [("PG_USE_AWS_RDS_SIGNER" : str, "true" : str);
                       ("PGPASSWORD" : str, "secret" : str)])
              (Some ("CA" : str)) eq_refl) as (opts & H1 & H2 & H3 & _).
  exists opts. auto.
Defined.

(** X11.  [initPool] fails exactly when the signer flag is set and the
    CA bundle cannot be read; and the options it makes have certificate
    verification on exactly when the signer flag is set and
    [PG_SSL_ALLOW_SELFSIGNED] is not: without the signer, certificates
    are never verified. *)
Theorem initPool_failure_and_verification (env : environment)
    (ca_file : option str) :
  ((exists e, snd (initPool env ca_file) = inl e) <->
   flag_on env "PG_USE_AWS_RDS_SIGNER" = true /\ ca_file = None) /\
  (forall opts,
     snd (initPool env ca_file) = inr opts ->
     ((exists require ca, ssl_option opts = ssl_object require true ca) <->
      flag_on env "PG_USE_AWS_RDS_SIGNER" = true /\
      flag_on env "PG_SSL_ALLOW_SELFSIGNED" = false)).
Proof.
  rewrite initPool_flags. cbv zeta.
  destruct (flag_on env "PG_USE_AWS_RDS_SIGNER"),
    (flag_on env "PG_SSL_REQUIRED"),
    (flag_on env "PG_SSL_ALLOW_SELFSIGNED"), ca_file as [ca|];
    cbn [snd orb negb];
    (split;
     [ split;
       [ intros [e H]; try discriminate H; auto
       | intros [H1 H2]; try discriminate H1; try discriminate H2; eauto ]
     | intros opts H; try discriminate H; injection H as <-;
       cbn [ssl_option];
       (split;
        [ intros (r & c & H); try discriminate H; auto
        | intros [H1 H2]; try discriminate H1; try discriminate H2;
          eauto ]) ]).
Qed.

(* ================================================================== *)
(** ** The transformer on any object *)

Section LoopFacts.

Context {host : RegExpHost}.

Lemma refused_dec (k : str) : {refused k} + {~ refused k}.
Proof.
  unfold refused.
  destruct (startsWith k "$"); [|auto].
  destruct (new_RegExp (escape_dollar k)); [right|auto].
  intros [H|H]; discriminate H.
Qed.

Lemma step_refused (o : object) (key : str) (st : str * list value) :
  refused key -> exists e, step o key st = Throw e.
Proof.
  destruct st as [q out]. unfold step.
  intros [H|H].
  - rewrite H. cbn [negb]. eauto.
  - destruct (startsWith key "$"); cbn [negb]; [|eauto].
    rewrite H. eauto.
Qed.

Lemma loop_throws (o : object) (keys : list str) (st : str * list value)
    (e : error) :
  loop o keys st = Throw e ->
  exists k, In k keys /\
    ((startsWith k "$" = false /\ e = InvalidParameterName k) \/
     (startsWith k "$" = true /\ new_RegExp (escape_dollar k) = None /\
      e = SyntaxError (escape_dollar k))).
Proof.
  revert st. induction keys as [|key keys IH]; intros st; [discriminate|].
  cbn [loop]. destruct (step o key st) as [st'|e'] eqn:E.
  - intros H. destruct (IH st' H) as (k & Hin & Hk).
    exists k. split; [right; exact Hin|exact Hk].
  - intros H. injection H as ->.
    exists key. split; [left; reflexivity|].
    exact (step_throws o key st e E).
Qed.

Lemma loop_refused (o : object) (keys : list str) (st : str * list value)
    (k : str) :
  In k keys -> refused k -> exists e, loop o keys st = Throw e.
Proof.
  revert st. induction keys as [|key keys IH]; intros st Hin Hk; [destruct Hin|].
  cbn [loop]. destruct (refused_dec key) as [Hr|Hr].
  - destruct (step_refused o key st Hr) as [e ->]. eauto.
  - destruct (step o key st) as [st'|e] eqn:E; [|eauto].
    destruct Hin as [<-|Hin]; [contradiction|].
    apply IH; assumption.
Qed.

Lemma step_parameters (o : object) (key q q' : str) (out out' : list value) :
  step o key (q, out) = Ok (q', out') ->
  out' = out \/ out' = out ++ contributes (get o key).
Proof.
  unfold step.
  destruct (startsWith key "$"); cbn [negb]; [|discriminate].
  destruct (new_RegExp (escape_dollar key)) as [rx|]; [|discriminate].
  destruct (test rx q); cbn [negb].
  - destruct (get o key) as [| |b|n|s|items]; cbn [isArray items_of contributes];
      try (intros H; injection H as _ <-; right; reflexivity).
    rewrite spread_spec. intros H; injection H as _ <-. right; reflexivity.
  - intros H; injection H as _ <-. left; reflexivity.
Qed.

Lemma loop_parameters (o : object) (keys : list str) (q q' : str)
    (out out' : list value) :
  loop o keys (q, out) = Ok (q', out') ->
  exists used,
    subsequence used keys /\
    out' = out ++ flat_map (fun k => contributes (get o k)) used.
Proof.
  revert q out. induction keys as [|key keys IH]; intros q out.
  - cbn [loop]. intros H; injection H as _ <-.
    exists []. split; [constructor|]. cbn. rewrite app_nil_r. reflexivity.
  - cbn [loop]. destruct (step o key (q, out)) as [[q1 out1]|e] eqn:E;
      [|discriminate].
    intros H. destruct (IH q1 out1 H) as (used & Hs & ->).
    destruct (step_parameters o key q q1 out out1 E) as [->| ->].
    + exists used. split; [constructor; exact Hs|reflexivity].
    + exists (key :: used). split; [constructor; exact Hs|].
      cbn [flat_map]. rewrite app_assoc. reflexivity.
Qed.

Lemma loop_none_occurs (o : object) (keys : list str) (q : str)
    (out : list value) :
  Forall (fun k => startsWith k "$" = true /\ plain_key k = true /\
                   occurs k q = false) keys ->
  loop o keys (q, out) = Ok (q, out).
Proof.
  induction 1 as [|key keys (Hd & Hp & Ho) _ IH]; [reflexivity|].
  cbn [loop]. rewrite step_plain by assumption. rewrite Ho. exact IH.
Qed.

Lemma step_ext (o o' : object) (key : str) (st : str * list value) :
  get o key = get o' key -> step o key st = step o' key st.
Proof. intros H. unfold step. rewrite H. reflexivity. Qed.

Lemma loop_ext (o o' : object) (keys : list str) (st : str * list value) :
  (forall k, get o k = get o' k) -> loop o keys st = loop o' keys st.
Proof.
  intros H. revert st. induction keys as [|key keys IH]; intros st;
    [reflexivity|].
  cbn [loop]. rewrite (step_ext o o' key st (H key)).
  destruct (step o' key st); [apply IH|reflexivity].
Qed.

End LoopFacts.

Lemma get_permutation (o o' : object) (k : str) :
  Permutation o o' -> NoDup (Object_keys o) -> get o k = get o' k.
Proof.
  unfold Object_keys.
  induction 1 as [|[k1 v1] o o' Hp IH|[k1 v1] [k2 v2] o|o1 o2 o3 H12 IH12 H23 IH23];
    intros Hn.
  - reflexivity.
  - cbn [get]. cbn [map fst] in Hn. inversion Hn; subst.
    rewrite IH by assumption. reflexivity.
  - cbn [get]. cbn [map fst] in Hn.
    destruct (str_eqb k2 k) eqn:E2, (str_eqb k1 k) eqn:E1; try reflexivity.
    apply str_eqb_eq in E1, E2. subst.
    inversion Hn as [|? ? Hnot _]; subst. cbn in Hnot. tauto.
  - rewrite IH12 by assumption. apply IH23.
    apply (Permutation_NoDup (Permutation_map fst H12) Hn).
Qed.

Lemma NoDup_of_lengths (l : list str) : NoDup (map (@length ascii) l) -> NoDup l.
Proof.
  induction l as [|k l IH]; cbn [map]; intros H; [constructor|].
  inversion H as [|? ? Hnot Hl]; subst. constructor; [|auto].
  intros Hin. apply Hnot. apply in_map. exact Hin.
Qed.

Lemma sorted_permutation_eq (l1 l2 : list str) :
  StronglySorted longer_first l1 -> StronglySorted longer_first l2 ->
  Permutation l1 l2 -> NoDup (map (@length ascii) l1) -> l1 = l2.
Proof.
  revert l2. induction l1 as [|a l1 IH]; intros l2 S1 S2 Hp Hn.
  - apply Permutation_nil in Hp. auto.
  - destruct l2 as [|b l2];
      [apply Permutation_sym, Permutation_nil in Hp; discriminate Hp|].
    inversion S1 as [|? ? S1' F1]; subst.
    inversion S2 as [|? ? S2' F2]; subst.
    cbn [map] in Hn. inversion Hn as [|? ? Hnot Hn']; subst.
    assert (Hab : a = b).
    { assert (Ha : In a (b :: l2))
        by (apply (Permutation_in _ Hp); left; reflexivity).
      assert (Hb : In b (a :: l1))
        by (apply (Permutation_in _ (Permutation_sym Hp)); left; reflexivity).
      destruct Ha as [Ha|Ha]; [auto|].
      destruct Hb as [Hb|Hb]; [auto|].
      rewrite Forall_forall in F1, F2.
      specialize (F1 b Hb). specialize (F2 a Ha).
      unfold longer_first in F1, F2.
      exfalso. apply Hnot.
      replace (length a) with (length b) by lia.
      apply in_map. exact Hb. }
    subst b. f_equal. apply IH; auto.
    apply Permutation_cons_inv in Hp. exact Hp.
Qed.

(** X12.  Whether the transformer throws on an object does not depend on
    the query: it throws exactly when some key does not start with [$]
    or is refused as a pattern by the engine, also when that key is not
    in the query.  What it throws is [InvalidParameterName] of a key
    without [$], or the engine's error on the escaped text of a key
    with it. *)
Theorem transformQuery_throws_for_some_key (host : RegExpHost) (q : str)
    (o : object) :
  ((exists e, transformQuery q (NamedParams o) = Throw e) <->
   (exists k, In k (Object_keys o) /\
      (startsWith k "$" = false \/ new_RegExp (escape_dollar k) = None))) /\
  (forall e, transformQuery q (NamedParams o) = Throw e ->
     exists k, In k (Object_keys o) /\
       ((startsWith k "$" = false /\ e = InvalidParameterName k) \/
        (startsWith k "$" = true /\ new_RegExp (escape_dollar k) = None /\
         e = SyntaxError (escape_dollar k)))).
Proof.
  assert (Hthrow : forall e, transformQuery q (NamedParams o) = Throw e ->
     exists k, In k (Object_keys o) /\
       ((startsWith k "$" = false /\ e = InvalidParameterName k) \/
        (startsWith k "$" = true /\ new_RegExp (escape_dollar k) = None /\
         e = SyntaxError (escape_dollar k)))).
  { intros e. unfold transformQuery.
    destruct (loop o (sort_keys (Object_keys o)) (q, [])) as [[q' out]|e']
      eqn:E; [discriminate|].
    intros H. injection H as ->.
    destruct (loop_throws o _ _ e E) as (k & Hin & Hk).
    exists k. split; [apply sort_keys_In, Hin|exact Hk]. }
  split; [|exact Hthrow]. split.
  - intros [e H]. destruct (Hthrow e H) as (k & Hin & Hk).
    exists k. split; [exact Hin|].
    destruct Hk as [[Hd _]|(_ & Hr & _)]; auto.
  - intros (k & Hin & Hk). apply sort_keys_In in Hin.
    destruct (loop_refused o _ (q, []) k Hin Hk) as [e E].
    exists e. unfold transformQuery. rewrite E. reflexivity.
Qed.

(** X13.  The parameter list returned for an object is made of the
    values of a selection of its keys, taken in the processing order
    (longest key first), the items of an array in place of the array:
    no value is listed twice for one key, none is reordered, and nothing
    else is listed. *)
Theorem parameters_are_values_of_keys (host : RegExpHost) (q q' : str)
    (o : object) (out : list value) :
  transformQuery q (NamedParams o) = Ok (q', ArrayParams out) ->
  exists used,
    subsequence used (sort_keys (Object_keys o)) /\
    out = flat_map (fun k => contributes (get o k)) used.
Proof.
  unfold transformQuery.
  destruct (loop o (sort_keys (Object_keys o)) (q, [])) as [[q1 out1]|e]
    eqn:E; [|discriminate].
  intros H. injection H as _ <-.
  destruct (loop_parameters o _ _ _ _ _ E) as (used & Hs & ->).
  exists used. split; [exact Hs|reflexivity].
Qed.

Lemma parameters_are_values_of_keys_witness :
  exists used,
    subsequence used ["$name" : str; "$ids" : str; "$x" : str] /\
    [VStr "Bob"; VNum 1; VNum 2] =
      flat_map (fun k => contributes
                  (get [("$x" : str, VNum 9);
                        ("$ids" : str, VArr [VNum 1; VNum 2]);
                        ("$name" : str, VStr "Bob")] k)) used.
Proof.
  apply (parameters_are_values_of_keys fragment_host
           "SELECT * FROM t WHERE name = $name AND id IN ($ids)"
           "SELECT * FROM t WHERE name = $1 AND id IN ($2, $3)"
           [("$x" : str, VNum 9);
            ("$ids" : str, VArr [VNum 1; VNum 2]);
            ("$name" : str, VStr "Bob")]
           [VStr "Bob"; VNum 1; VNum 2]).
  vm_compute. reflexivity.
Defined.

(** X14.  When every key is a plain [$]-prefixed key and none occurs in
    the query, the query comes back as it was, with an empty array as
    its parameters: the values are dropped without an error.  The empty
    object is the case without keys. *)
Theorem no_key_in_query_gives_empty_list (host : RegExpHost) (q : str)
    (o : object) :
  Forall (fun k => startsWith k "$" = true /\ plain_key k = true /\
                   occurs k q = false) (Object_keys o) ->
  transformQuery q (NamedParams o) = Ok (q, ArrayParams []).
Proof.
  intros H. unfold transformQuery.
  rewrite loop_none_occurs; [reflexivity|].
  rewrite Forall_forall in *. intros k Hk. apply H, sort_keys_In, Hk.
Qed.

Lemma no_key_in_query_gives_empty_list_witness :
  @transformQuery fragment_host "SELECT 1" (NamedParams []) =
    Ok ("SELECT 1" : str, ArrayParams []) /\
  @transformQuery fragment_host "SELECT $1"
    (NamedParams [("$id" : str, VNum 3)]) =
    Ok ("SELECT $1" : str, ArrayParams []).
Proof.
  split.
  - apply (no_key_in_query_gives_empty_list fragment_host "SELECT 1" []).
    constructor.
  - apply (no_key_in_query_gives_empty_list fragment_host "SELECT $1"
             [("$id" : str, VNum 3)]).
    repeat constructor.
Defined.

(** X15.  The result does not depend on the order in which the object
    lists its keys, as long as no two keys have the same length: the
    sort then fixes the processing order.  (Keys of equal length are
    processed in the object's order.) *)
Theorem key_order_is_irrelevant (host : RegExpHost) (q : str)
    (o o' : object) :
  Permutation o o' ->
  NoDup (map (@length ascii) (Object_keys o)) ->
  transformQuery q (NamedParams o) = transformQuery q (NamedParams o').
Proof.
  intros Hp Hn. unfold transformQuery.
  assert (Hk : Permutation (Object_keys o) (Object_keys o'))
    by (apply Permutation_map, Hp).
  assert (Hs : sort_keys (Object_keys o) = sort_keys (Object_keys o')).
  { apply sorted_permutation_eq; try apply sort_keys_sorted.
    - rewrite <- (sort_keys_perm (Object_keys o)).
      rewrite <- (sort_keys_perm (Object_keys o')). exact Hk.
    - apply (Permutation_NoDup
               (Permutation_map (@length ascii)
                  (sort_keys_perm (Object_keys o))) Hn). }
  rewrite <- Hs.
  rewrite (loop_ext o o' _ _
             (fun k => get_permutation o o' k Hp (NoDup_of_lengths _ Hn))).
  reflexivity.
Qed.

Lemma key_order_is_irrelevant_witness :
  @transformQuery fragment_host "a = $a AND bb = $bb"
    (NamedParams [("$a" : str, VNum 1); ("$bb" : str, VNum 2)]) =
  @transformQuery fragment_host "a = $a AND bb = $bb"
    (NamedParams [("$bb" : str, VNum 2); ("$a" : str, VNum 1)]).
Proof.
  apply (key_order_is_irrelevant fragment_host "a = $a AND bb = $bb"
           [("$a" : str, VNum 1); ("$bb" : str, VNum 2)]
           [("$bb" : str, VNum 2); ("$a" : str, VNum 1)]).
  - apply perm_swap.
  - repeat constructor; cbn; intuition discriminate.
Defined.

(* ================================================================== *)
(** ** What a call sends and what it writes *)

(** The cases of one call of [queryMultiple], each with its trace
    written out. *)
Ltac call_cases q p supplied t :=
  let c := fresh "c" in
  let code := fresh "code" in
  let Hc := fresh "Hc" in
  let tq := fresh "tq" in
  let e := fresh "e" in
  let Htq := fresh "Htq" in
  let rows := fresh "rows" in
  let Hq := fresh "Hq" in
  destruct supplied as [c|];
  [ rewrite !queryMultiple_supplied
  | destruct (pool_connect t) as [c|code] eqn:Hc;
    [ rewrite !(queryMultiple_owned q p t c Hc), !queryMultiple_supplied
    | rewrite !(queryMultiple_acquisition_failed q p t code Hc) ] ];
  [ destruct (transformQuery q p) as [tq|e] eqn:Htq; cbv beta iota zeta;
    [ destruct (client_query _ c (fst tq) (snd tq)) as [rows|code] eqn:Hq | ]
  | destruct (transformQuery q p) as [tq|e] eqn:Htq; cbv beta iota zeta;
    [ destruct (client_query _ c (fst tq) (snd tq)) as [rows|code] eqn:Hq | ]
  | ];
  cbn [fst snd]; repeat (rewrite <- app_assoc; cbn [app]).

(** X16.  One call of [queryMultiple] sends at most one statement.  When
    it sends one, it is the transformer's output -- its query and its
    parameters -- on the client in use, the caller's or the one just
    acquired, and the call ends as that statement ends.  It sends none
    only when the transformer throws or the acquisition fails, and the
    call then throws. *)
Theorem queryMultiple_sends_one_statement (host : RegExpHost) (pg : PgHost)
    (q : str) (p : params) (supplied : option client) (t : trace) :
  exists evs,
    snd (queryMultiple q p supplied t) = t ++ evs /\
    ((statements_of evs = [] /\
      (exists e, fst (queryMultiple q p supplied t) = Throw e) /\
      ((exists e, transformQuery q p = Throw e) \/
       (supplied = None /\ exists code, pool_connect t = Rejected code)))
     \/
     (exists c tq,
        transformQuery q p = Ok tq /\
        statements_of evs =
          [ClientQuery c (fst tq) (snd tq)
             (fst (queryMultiple q p supplied t))] /\
        match supplied with
        | Some c' => c' = c
        | None => pool_connect t = Resolved c
        end)).
Proof.
  call_cases q p supplied t;
    (eexists; split; [reflexivity|]); cbn [statements_of filter is_query];
    first [ left; split; [reflexivity|]; split; [eauto|]; eauto
          | right; eexists _, _; split; [reflexivity|];
            split; reflexivity ].
Qed.

Lemma logger_methods (env : environment) (level : log_level) :
  map fst (logger env level []) =
  match level with
  | DEBUG => if (logLevel env <=? 1)%nat then [console_log] else []
  | INFO => if (logLevel env <=? 2)%nat then [console_info] else []
  | WARN => if (logLevel env <=? 3)%nat then [console_warn] else []
  | ERROR => if (logLevel env <=? 4)%nat then [console_error] else []
  end.
Proof.
  destruct level; unfold logger;
    match goal with |- context [(?a <=? ?b)%nat] =>
      destruct (a <=? b)%nat end; reflexivity.
Qed.

(** X17.  What one call of [queryMultiple] writes: [console.error] is
    reached exactly when the call throws and the level is [ERROR] or
    lower; [console.log] exactly when the level is [DEBUG] and the call
    got as far as a transformed query on a client; [console.info] and
    [console.warn] never.  So at the levels [INFO], [WARN] and [ERROR] a
    call that returns writes nothing, and the silent level hides every
    failure. *)
Theorem queryMultiple_writes (host : RegExpHost) (pg : PgHost)
    (env : environment) (q : str) (p : params) (supplied : option client)
    (t : trace) :
  exists evs,
    snd (queryMultiple q p supplied t) = t ++ evs /\
    (In console_error (console_of env evs) <->
     logLevel env <= 4 /\
     exists e, fst (queryMultiple q p supplied t) = Throw e) /\
    (In console_log (console_of env evs) <->
     logLevel env <= 1 /\
     (exists tq, transformQuery q p = Ok tq) /\
     (supplied = None -> exists c, pool_connect t = Resolved c)) /\
    ~ In console_info (console_of env evs) /\
    ~ In console_warn (console_of env evs).
Proof.
  call_cases q p supplied t;
    (eexists; split; [reflexivity|]);
    unfold console_of; cbn [flat_map app]; rewrite ?logger_methods;
    destruct (logLevel env <=? 4)%nat eqn:L4;
    destruct (logLevel env <=? 1)%nat eqn:L1;
    rewrite ?Nat.leb_le, ?Nat.leb_gt in *; cbn [app In];
    repeat (split || intro);
    repeat match goal with
      | H : exists _, _ |- _ => destruct H
      | H : _ /\ _ |- _ => destruct H
      | H : _ \/ _ |- _ => destruct H
      | H : False |- _ => destruct H
      | H : None = None -> _ |- _ => specialize (H eq_refl)
      end;
    try lia; try congruence; eauto;
    try (left; reflexivity); try (right; left; reflexivity).
Qed.

(* ================================================================== *)
(** ** The two versions of the query functions *)

Section Versions.

Context {host : RegExpHost} {pg : PgHost}.

Lemma driver_calls_app (a b : trace) :
  driver_calls (a ++ b) = driver_calls a ++ driver_calls b.
Proof. apply filter_app. Qed.

(** With a client acquired the two versions do the same; after a failed
    acquisition the older one logs the error once more. *)
Lemma queryMultiple_v1_0_cases (q : str) (p : params) (t : trace) :
  match pool_connect t with
  | Resolved _ => queryMultiple_v1_0 q p t = queryMultiple q p None t
  | Rejected code =>
      queryMultiple_v1_0 q p t =
      (fst (queryMultiple q p None t),
       snd (queryMultiple q p None t) ++ [Logged ERROR])
  end.
Proof.
  unfold queryMultiple_v1_0, queryMultiple, bind, ret, try_finally,
    try_catch, connect, release, emit, lift, logger_log, logger_error,
    throw, query_rows.
  destruct (pool_connect t) as [c|code]; cbn; [|reflexivity].
  destruct (transformQuery q p) as [tq|e]; cbn; [|reflexivity].
  destruct (client_query _ c (fst tq) (snd tq)); reflexivity.
Qed.

Lemma queryMultiple_v1_0_agrees (q : str) (p : params) (t : trace) :
  fst (queryMultiple_v1_0 q p t) = fst (queryMultiple q p None t) /\
  driver_calls (snd (queryMultiple_v1_0 q p t)) =
    driver_calls (snd (queryMultiple q p None t)).
Proof.
  pose proof (queryMultiple_v1_0_cases q p t) as H.
  destruct (pool_connect t) as [c|code]; rewrite H; [auto|].
  cbn [fst snd]. rewrite driver_calls_app. cbn. rewrite app_nil_r. auto.
Qed.

End Versions.

(** X18.  Called without a client, the query functions of the version
    with transactions do what those of the version before it do: each
    returns or throws the same, after the same calls to the driver in
    the same order; and when the pool hands out a client the whole
    trace is the same.  (After a failed acquisition the older version
    logs the error twice, the newer one once.) *)
Theorem versions_agree_without_client (host : RegExpHost) (pg : PgHost)
    (q : str) (p : params) (t : trace) :
  same_from t (queryMultiple_v1_0 q p) (queryMultiple q p None) /\
  same_from t (query_v1_0 q p) (query q p None) /\
  same_from t (querySingle_v1_0 q p) (querySingle q p None) /\
  same_from t (queryScalar_v1_0 q p) (queryScalar q p None).
Proof.
  unfold same_from.
  pose proof (queryMultiple_v1_0_cases q p t) as Hcases.
  destruct (queryMultiple_v1_0_agrees q p t) as [Hr Hd].
  assert (Hsame : (exists c, pool_connect t = Resolved c) ->
                  queryMultiple_v1_0 q p t = queryMultiple q p None t).
  { intros [c Hc]. rewrite Hc in Hcases. exact Hcases. }
  unfold queryScalar_v1_0, queryScalar, query_v1_0, query.
  unfold querySingle_v1_0, querySingle, bind, ret.
  destruct (queryMultiple_v1_0 q p t) as [r0 t0],
    (queryMultiple q p None t) as [r1 t1].
  cbn [fst snd] in *. subst r1.
  repeat split; try (intros Hc; specialize (Hsame Hc);
                     injection Hsame as ->);
    destruct r0 as [[|r rows]|e]; cbn; auto.
Qed.

(* ================================================================== *)
(** ** A repeated key *)


